(** * words: a prefix trie and the search for words made of other words

    A shallow embedding of [src/words.c] (the file [src/words.cpp] holds the
    same functions, statement for statement) and the properties of its
    trie, of its break-point query [isLeafBreak] and of the recursive
    detector [concatWord].

    Conventions of the embedding.
    - A [const char *] is the list of the characters that precede the
      terminating NUL.  Reading [str[i]] with [i] outside the list is not a
      defined read of a letter; together with every index into
      [character[CHAR_SIZE]] that is outside [0 .. CHAR_SIZE-1] it is
      undefined behaviour of the C program and shows as [None] (or
      [Undefined]) in the embedding.
    - An [int] is a [Z].  Every position the functions compute stays between
      [start] and [end + 1], so no machine arithmetic leaves the range of the
      arguments.
    - A [trie *] that owns its subtree is a value of the inductive type
      [trie]; [NULL] children are [None].  [malloc] is taken to succeed. *)

From Stdlib Require Import ZArith Ascii String List Lia Bool.
From stdpp Require Import base option list sorting gmap.

Local Open Scope Z_scope.

(** ** Data model *)

Definition CHAR_SIZE : Z := 26.

(** [struct Trie { bool isLeaf; struct Trie *character[CHAR_SIZE]; }] *)
#[warnings="-register-all"]
Inductive trie : Type :=
  Node (leaf : bool) (slots : list (option trie)).

Definition isLeaf (node : trie) : bool :=
  match node with Node l _ => l end.

Definition character (node : trie) : list (option trie) :=
  match node with Node _ cs => cs end.

Definition cstring : Type := list ascii.

Definition cstr (s : string) : cstring := list_ascii_of_string s.

(** [str[0] - 'a'], an [int]. *)
Definition char_index (c : ascii) : Z := Z.of_N (N_of_ascii c) - 97.

Definition lower (c : ascii) : bool :=
  (0 <=? char_index c) && (char_index c <? CHAR_SIZE).

Definition lowercase (str : cstring) : bool := forallb lower str.

(** [str[i]] for a position inside the word. *)
Definition char_at (str : cstring) (i : Z) : option ascii :=
  if 0 <=? i then str !! Z.to_nat i else None.

(** [node->character[ch]]: [None] when [ch] is outside the array,
    [Some None] for a [NULL] slot, [Some (Some child)] otherwise. *)
Definition edge (node : trie) (ch : Z) : option (option trie) :=
  if (0 <=? ch) && (ch <? CHAR_SIZE) then character node !! Z.to_nat ch
  else None.

(** Every node carries exactly [CHAR_SIZE] slots. *)
Fixpoint wf (node : trie) : bool :=
  match node with
  | Node _ cs =>
      (Z.of_nat (length cs) =? CHAR_SIZE)
      && forallb (fun slot => match slot with
                              | Some child => wf child
                              | None => true
                              end) cs
  end.

(** ** The trie operations *)

(** [create(NULL)]: a fresh node, flag cleared, every slot [NULL]. *)
Definition create : trie := Node false (replicate (Z.to_nat CHAR_SIZE) None).

(** [insertWord(node, str)].  The slot reference [edge] is filled by
    [create] when it is [NULL], then overwritten with the result of the
    recursive call. *)
Fixpoint insertWord (node : trie) (str : cstring) : option trie :=
  match str with
  | [] => Some (Node true (character node))
  | c :: rest =>
      let ch := char_index c in
      slot ← edge node ch;
      sub ← insertWord (default create slot) rest;
      Some (Node (isLeaf node) (<[Z.to_nat ch := Some sub]> (character node)))
  end.

(** The body of the [for] loop of [isLeafBreak]; [n] is the number of
    iterations still to run, [end + 1 - i].  The result pairs the returned
    [bool] with the final value of the reference parameter [mid]. *)
Fixpoint isLeafBreak_loop (n : nat) (subnode : trie) (str : cstring)
    (end_ i mid : Z) : option (bool * Z) :=
  match n with
  | O => Some (isLeaf subnode, end_)
  | S n' =>
      c ← char_at str i;
      slot ← edge subnode (char_index c);
      match slot with
      | None => Some (false, mid)
      | Some next =>
          if (mid <=? i) && isLeaf next then Some (true, i)
          else isLeafBreak_loop n' next str end_ (i + 1) mid
      end
  end.

Definition isLeafBreak (node : trie) (str : cstring) (start end_ mid : Z)
    : option (bool * Z) :=
  isLeafBreak_loop (Z.to_nat (end_ + 1 - start)) node str end_ start mid.

(** ** The detector *)

Inductive outcome (A : Type) : Type :=
  | Ret (a : A)
  | Undefined
  | OutOfFuel.
Arguments Ret {A} a.
Arguments Undefined {A}.
Arguments OutOfFuel {A}.

(** [concatWord] returns the count and leaves the flag in [result]; the
    embedding returns the pair [(count, result)].  [concatWord_loop] is the
    [for] loop at loop variable [i].  Each call and each iteration spends one
    unit of fuel. *)
Fixpoint concatWord_fuel (fuel : nat) (node : trie) (str : cstring)
    (start end_ : Z) {struct fuel} : outcome (Z * bool) :=
  if start >? end_ then Ret (0, false)
  else
    match fuel with
    | O => OutOfFuel
    | S fuel' => concatWord_loop fuel' node str start end_ start
    end
with concatWord_loop (fuel : nat) (node : trie) (str : cstring)
    (start end_ i : Z) {struct fuel} : outcome (Z * bool) :=
  if i >? end_ then Ret (0, false)
  else
    match fuel with
    | O => OutOfFuel
    | S fuel' =>
        match isLeafBreak node str start end_ i with
        | None => Undefined
        | Some (bPartOne, i') =>
            if i' =? end_ then Ret (if bPartOne then 1 else 0, bPartOne)
            else
              match concatWord_fuel fuel' node str (i' + 1) end_ with
              | Ret (cntWords, bPartTwo) =>
                  if bPartOne && bPartTwo then Ret (1 + cntWords, true)
                  else concatWord_loop fuel' node str start end_ (i' + 1)
              | Undefined => Undefined
              | OutOfFuel => OutOfFuel
              end
        end
    end.

(** Twice the length of the range is enough fuel for every call. *)
Definition concatWord (node : trie) (str : cstring) (start end_ : Z)
    : outcome (Z * bool) :=
  concatWord_fuel (Z.to_nat (2 * (end_ + 1 - start))) node str start end_.

(** The trie that [ReadWordFile] builds. *)
Definition insertWords (node : trie) (words : list cstring) : option trie :=
  foldl (fun acc w => t ← acc; insertWord t w) (Some node) words.

Definition buildTrie (words : list cstring) : option trie :=
  insertWords create words.

(** ** The dictionary view of a trie *)

(** The node below [node] along the letter [c], when there is one. *)
Definition child (node : trie) (c : ascii) : option trie :=
  match edge node (char_index c) with
  | Some (Some next) => Some next
  | _ => None
  end.

(** The node reached from [node] along the letters of [s]. *)
Fixpoint descend (node : trie) (s : cstring) : option trie :=
  match s with
  | [] => Some node
  | c :: s' => next ← child node c; descend next s'
  end.

(** [s] spells a path to a node whose flag is set. *)
Definition member (node : trie) (s : cstring) : bool :=
  match descend node s with
  | Some n => isLeaf n
  | None => false
  end.

(** The characters of [str] at positions [a .. b], both included. *)
Definition substr (str : cstring) (a b : Z) : cstring :=
  take (Z.to_nat (b + 1 - a)) (drop (Z.to_nat a) str).

(** The node reached after the letters at positions [start .. j]. *)
Definition node_at (node : trie) (str : cstring) (start j : Z) : option trie :=
  descend node (substr str start j).

(** The walk from [start] reaches, at position [j], a node whose flag is
    set: the letters at [start .. j] spell a word of the trie. *)
Definition terminal_at (node : trie) (str : cstring) (start j : Z) : bool :=
  member node (substr str start j).

(** ** The break-point query as the specification words it *)

(** The first of the [n] positions [i, i+1, ..] at which [P] holds. *)
Fixpoint first_stop (P : Z -> bool) (i : Z) (n : nat) : option Z :=
  match n with
  | O => None
  | S n' => if P i then Some i else first_stop P (i + 1) n'
  end.

(** [findBreak(word, start, end, minBreak)]: scanning left to right, the walk
    stops at the first position where the edge is missing (failure) or where
    the node is terminal at or after [minBreak] (success); a walk that
    consumes the whole range succeeds exactly when its last node is terminal.
    The second component is what the query leaves in its position
    argument. *)
Definition findBreak (node : trie) (str : cstring) (start end_ minBreak : Z)
    : bool * Z :=
  let stop j :=
    match node_at node str start j with
    | None => true
    | Some n => (minBreak <=? j) && isLeaf n
    end in
  match first_stop stop start (Z.to_nat (end_ + 1 - start)) with
  | Some j =>
      match node_at node str start j with
      | Some _ => (true, j)
      | None => (false, minBreak)
      end
  | None => (member node (substr str start end_), end_)
  end.

(** ** The detector as the specification words it

    Results are pairs [(found, pieceCount)].  [depth] bounds the nesting of
    the recursive evaluations (a range of length [n] nests at most [n]
    deep) and [k] the number of candidates still to try. *)

(** The procedure read to the letter: in steps b and c the position [i] is
    the candidate split point of the iteration. *)
Fixpoint split_spec (rec : Z -> bool * Z) (node : trie) (str : cstring)
    (start end_ : Z) (k : nat) (i : Z) : bool * Z :=
  match k with
  | O => (false, 0)
  | S k' =>
      let firstPieceFound := fst (findBreak node str start end_ i) in
      if i =? end_ then (firstPieceFound, if firstPieceFound then 1 else 0)
      else
        let '(secondPieceFound, restCount) := rec (i + 1) in
        if firstPieceFound && secondPieceFound then (true, 1 + restCount)
        else split_spec rec node str start end_ k' (i + 1)
  end.

Fixpoint canSegment_spec_depth (depth : nat) (node : trie) (str : cstring)
    (start end_ : Z) : bool * Z :=
  if start >? end_ then (false, 0)
  else
    match depth with
    | O => (false, 0)
    | S d =>
        split_spec (fun s => canSegment_spec_depth d node str s end_)
          node str start end_ (Z.to_nat (end_ + 1 - start)) start
    end.

Definition canSegment_spec (node : trie) (str : cstring) (start end_ : Z)
    : bool * Z :=
  canSegment_spec_depth (Z.to_nat (end_ + 1 - start)) node str start end_.

(** The same procedure with one change: in steps b and c, and for the next
    candidate, the position is the one the query leaves behind (the break
    position it reports, [end] after a complete walk, the candidate itself
    after a missing edge). *)
Fixpoint split_amended (rec : Z -> bool * Z) (node : trie) (str : cstring)
    (start end_ : Z) (k : nat) (i : Z) : bool * Z :=
  match k with
  | O => (false, 0)
  | S k' =>
      let '(firstPieceFound, pos) := findBreak node str start end_ i in
      if pos =? end_ then (firstPieceFound, if firstPieceFound then 1 else 0)
      else
        let '(secondPieceFound, restCount) := rec (pos + 1) in
        if firstPieceFound && secondPieceFound then (true, 1 + restCount)
        else split_amended rec node str start end_ k' (pos + 1)
  end.

Fixpoint canSegment_amended_depth (depth : nat) (node : trie) (str : cstring)
    (start end_ : Z) : bool * Z :=
  if start >? end_ then (false, 0)
  else
    match depth with
    | O => (false, 0)
    | S d =>
        split_amended (fun s => canSegment_amended_depth d node str s end_)
          node str start end_ (Z.to_nat (end_ + 1 - start)) start
    end.

Definition canSegment_amended (node : trie) (str : cstring) (start end_ : Z)
    : bool * Z :=
  canSegment_amended_depth (Z.to_nat (end_ + 1 - start)) node str start end_.

(** ** Partitions into dictionary words *)

(** [ps] cuts [s] into one or more non-empty pieces, each a member of the
    dictionary [D]. *)
Definition partition_of (D : cstring -> Prop) (s : cstring)
    (ps : list cstring) : Prop :=
  ps <> [] /\ concat ps = s /\ Forall (fun p => p <> [] /\ D p) ps.

(** The words a trie holds. *)
Definition terminal_word (node : trie) (p : cstring) : Prop :=
  member node p = true.

(** Every break position of the range [start .. end] before [i] has been
    tried: the rest after it has no partition. *)
Definition all_tried (node : trie) (str : cstring) (end_ start i : Z) : Prop :=
  forall b, start <= b < i -> terminal_at node str start b = true ->
    forall ps, ~ partition_of (terminal_word node) (substr str (b + 1) end_) ps.

(** The specification orders a result [(found, pieceCount)], the code
    returns the count and stores the flag. *)
Definition swap_result (r : bool * Z) : Z * bool := (snd r, fst r).

(** What a result [(found, pieceCount)] for the range [start .. end] says
    about the partitions of the range into words of the trie. *)
Definition segmentation_result (node : trie) (str : cstring) (start end_ : Z)
    (r : bool * Z) : Prop :=
  (fst r = true ->
     1 <= snd r /\
     exists ps, Z.of_nat (length ps) = snd r
       /\ partition_of (terminal_word node) (substr str start end_) ps)
  /\ (fst r = false ->
        snd r = 0 /\
        forall ps, ~ partition_of (terminal_word node) (substr str start end_) ps).

(** The invariant of the data model, for the words inserted so far: the
    paths of the trie are the prefixes of the words (the root, the path of
    the empty string, is always there) and the flagged nodes are the words. *)
Definition trie_invariant (node : trie) (words : list cstring) : Prop :=
  forall s,
    (is_Some (descend node s) <->
       s = [] \/ exists w, In w words /\ s `prefix_of` w)
    /\ (forall n, descend node s = Some n -> (isLeaf n = true <-> In s words)).

(** [insertWord] with the same word, [n] more times. *)
Fixpoint insert_again (n : nat) (node : trie) (w : cstring) : option trie :=
  match n with
  | O => Some node
  | S n' => node' ← insertWord node w; insert_again n' node' w
  end.

(** ** The loader and the driver *)

(** [set<size_t>]: an ordered set, kept as a strictly increasing list. *)
Fixpoint set_insert (x : nat) (s : list nat) : list nat :=
  match s with
  | [] => [x]
  | y :: s' =>
      if (x <? y)%nat then x :: s
      else if (x =? y)%nat then s
      else y :: set_insert x s'
  end.

(** What [ReadWordFile] fills: the trie, [map<size_t, StringList>] and
    [set<size_t>]. *)
Record word_index : Type := WordIndex {
  root : trie;
  wordsWithSameLen : gmap nat (list cstring);
  LengthSet : list nat
}.

(** [mapWordsWithSameLen[len]]: the list stored under [len], empty when the
    key is new. *)
Definition words_of_length (m : gmap nat (list cstring)) (len : nat)
    : list cstring :=
  default [] (m !! len).

(** One turn of the reading loop, for the word [w] of the input. *)
Definition ReadWordFile_step (st : word_index) (w : cstring)
    : option word_index :=
  root' ← insertWord (root st) w;
  let len := length w in
  Some (WordIndex root'
          (<[len := words_of_length (wordsWithSameLen st) len ++ [w]]>
             (wordsWithSameLen st))
          (set_insert len (LengthSet st))).

Definition ReadWordFile (words : list cstring) : option word_index :=
  foldl (fun acc w => st ← acc; ReadWordFile_step st w)
    (Some (WordIndex create ∅ [])) words.

(** The test of [main] on one word: [found && cntConcat > 1] after
    [concatWord(root, word, 0, size - 1, found)]. *)
Definition compound (node : trie) (w : cstring) : outcome bool :=
  match concatWord node w 0 (Z.of_nat (length w) - 1) with
  | Ret (cntConcat, found) => Ret (found && (1 <? cntConcat))
  | Undefined => Undefined
  | OutOfFuel => OutOfFuel
  end.

(** The inner loop of [main]: the words of one length, in the order of the
    list; the result is what is written to the output file. *)
Fixpoint scan_group (node : trie) (dict : list cstring)
    : outcome (list cstring) :=
  match dict with
  | [] => Ret []
  | w :: rest =>
      match compound node w with
      | Ret q =>
          match scan_group node rest with
          | Ret out => Ret (if q then w :: out else out)
          | Undefined => Undefined
          | OutOfFuel => OutOfFuel
          end
      | Undefined => Undefined
      | OutOfFuel => OutOfFuel
      end
  end.

(** The outer loop of [main], over the lengths it is given. *)
Fixpoint scan_lengths (node : trie) (m : gmap nat (list cstring))
    (lens : list nat) : outcome (list cstring) :=
  match lens with
  | [] => Ret []
  | len :: rest =>
      match scan_group node (words_of_length m len) with
      | Ret out1 =>
          match scan_lengths node m rest with
          | Ret out2 => Ret (out1 ++ out2)
          | Undefined => Undefined
          | OutOfFuel => OutOfFuel
          end
      | Undefined => Undefined
      | OutOfFuel => OutOfFuel
      end
  end.

(** [main] on the words of the input file: the lines of the output file.
    The lengths are visited from [rbegin] to [rend]. *)
Definition main_output (words : list cstring) : outcome (list cstring) :=
  match ReadWordFile words with
  | Some st => scan_lengths (root st) (wordsWithSameLen st) (rev (LengthSet st))
  | None => Undefined
  end.

(** A word qualifies: the detector returns a true flag and a count above 1. *)
Definition qualifying (node : trie) (w : cstring) : bool :=
  match concatWord node w 0 (Z.of_nat (length w) - 1) with
  | Ret (cntConcat, found) => found && (1 <? cntConcat)
  | _ => false
  end.

Definition has_length (n : nat) (w : cstring) : bool := (length w =? n)%nat.

(** ** What [main] reports

    Besides the output file, [main] prints the first word it writes as "The
    longest output", the second as "The second longest longest output", and
    the number of words written as "Total Found words". *)
Record report : Type := Report {
  longest : option cstring;
  second_longest : option cstring;
  foundWords : nat;
  foundWordsFile : list cstring
}.

(** The body of [if (found && cntConcat > 1)] for the word [w]. *)
Definition emit (r : report) (w : cstring) : report :=
  Report
    (if (foundWords r =? 0)%nat then Some w else longest r)
    (if (foundWords r =? 0)%nat then second_longest r
     else if (foundWords r =? 1)%nat then Some w else second_longest r)
    (S (foundWords r))
    (foundWordsFile r ++ [w]).

(** The inner loop of [main], with the counters and the two streams. *)
Fixpoint run_group (node : trie) (dict : list cstring) (r : report)
    : outcome report :=
  match dict with
  | [] => Ret r
  | w :: rest =>
      match compound node w with
      | Ret q => run_group node rest (if q then emit r w else r)
      | Undefined => Undefined
      | OutOfFuel => OutOfFuel
      end
  end.

(** The outer loop of [main]. *)
Fixpoint run_lengths (node : trie) (m : gmap nat (list cstring))
    (lens : list nat) (r : report) : outcome report :=
  match lens with
  | [] => Ret r
  | len :: rest =>
      match run_group node (words_of_length m len) r with
      | Ret r' => run_lengths node m rest r'
      | Undefined => Undefined
      | OutOfFuel => OutOfFuel
      end
  end.

(** [main] from the words of the input file to what it reports. *)
Definition main_report (words : list cstring) : outcome report :=
  match ReadWordFile words with
  | Some st =>
      run_lengths (root st) (wordsWithSameLen st) (rev (LengthSet st))
        (Report None None 0 [])
  | None => Undefined
  end.

(** ** The size of a trie *)

(** The number of nodes of a trie: the blocks that [create] allocated and
    that [trieDestroy] has to free. *)
Fixpoint nodes (node : trie) : nat :=
  match node with
  | Node _ cs =>
      S (list_sum (map (fun slot => match slot with
                                    | Some sub => nodes sub
                                    | None => O
                                    end) cs))
  end.

Definition slot_nodes (slot : option trie) : nat :=
  match slot with
  | Some sub => nodes sub
  | None => O
  end.

(** The number of leading letters of [w] along which the trie already has
    nodes. *)
Fixpoint shared_prefix (node : trie) (w : cstring) : nat :=
  match w with
  | [] => O
  | c :: rest =>
      match child node c with
      | Some next => S (shared_prefix next rest)
      | None => O
      end
  end.

(** ** Sample dictionaries *)

Definition dict1 : list cstring :=
  [cstr "cat"; cstr "cats"; cstr "dog"; cstr "catsdog"].

Definition trie1 : trie := default create (buildTrie dict1).

Definition dict2 : list cstring := [cstr "ab"; cstr "bc"].

Definition trie2 : trie := default create (buildTrie dict2).

Definition dict3 : list cstring := [cstr "cat"; cstr "cats"; cstr "dog"].

Definition trie3 : trie := default create (buildTrie dict3).

Definition dict4 : list cstring :=
  [cstr "a"; cstr "b"; cstr "ab"; cstr "ba"; cstr "aab"].

Definition dict5 : list cstring :=
  [cstr "rat"; cstr "cat"; cstr "rats"; cstr "bat"].

Definition trie5 : trie := default create (buildTrie dict5).

(** * Properties *)

(** ** The scenarios of the specification *)

Example scenario1 :
  concatWord trie1 (cstr "catsdog") 0 6 = Ret (2, true).
Proof. vm_compute. reflexivity. Qed.

Example scenario2 :
  concatWord (default create (buildTrie [cstr "cat"])) (cstr "cat") 0 2
  = Ret (1, true).
Proof. vm_compute. reflexivity. Qed.

Example scenario4 :
  concatWord trie5 (cstr "xyz") 0 2 = Ret (0, false).
Proof. vm_compute. reflexivity. Qed.

(** A missing edge leaves [mid] as it was; a walk of the whole range that
    ends on a node without the flag sets it to [end]. *)
Example mid_after_missing_edge :
  isLeafBreak trie5 (cstr "raxs") 0 3 1 = Some (false, 1).
Proof. vm_compute. reflexivity. Qed.

Example mid_after_full_walk :
  isLeafBreak trie5 (cstr "ra") 0 1 0 = Some (false, 1).
Proof. vm_compute. reflexivity. Qed.

(** A letter outside ['a' .. 'z'] indexes outside the array of children. *)
Example uppercase_is_undefined :
  insertWord create (cstr "Cat") = None
  /\ concatWord trie1 (cstr "Cat") 0 2 = Undefined.
Proof. vm_compute. auto. Qed.

Example scenario3 :
  main_output [cstr "a"; cstr "b"; cstr "ab"] = Ret [cstr "ab"].
Proof. vm_compute. reflexivity. Qed.

Example longest_first :
  main_output dict4 = Ret [cstr "aab"; cstr "ab"; cstr "ba"].
Proof. vm_compute. reflexivity. Qed.

Example report_of_dict4 :
  main_report dict4
  = Ret (Report (Some (cstr "aab")) (Some (cstr "ab")) 3
           [cstr "aab"; cstr "ab"; cstr "ba"]).
Proof. vm_compute. reflexivity. Qed.

(** ** Comparisons *)

Lemma gtb_false a b : a <= b -> (a >? b) = false.
Proof. intros H. rewrite Z.gtb_ltb. apply Z.ltb_ge. lia. Qed.

Lemma gtb_true a b : b < a -> (a >? b) = true.
Proof. intros H. rewrite Z.gtb_ltb. apply Z.ltb_lt. lia. Qed.

(** ** Well-formed nodes *)

Lemma wf_Node l cs :
  wf (Node l cs) = true <->
  Z.of_nat (length cs) = CHAR_SIZE /\
  Forall (fun slot => forall sub, slot = Some sub -> wf sub = true) cs.
Proof.
  cbn [wf]. rewrite andb_true_iff, Z.eqb_eq, forallb_forall, Forall_forall.
  split; intros [Hlen Hall]; split; trivial.
  - intros slot Hin sub ->. apply list_elem_of_In in Hin. exact (Hall _ Hin).
  - intros [sub|] Hin; [|reflexivity].
    apply list_elem_of_In in Hin. exact (Hall _ Hin _ eq_refl).
Qed.

Lemma wf_create : wf create = true.
Proof. reflexivity. Qed.

Lemma lower_range c : lower c = true -> 0 <= char_index c < CHAR_SIZE.
Proof. unfold lower. rewrite andb_true_iff. lia. Qed.

Lemma wf_edge node c :
  wf node = true -> lower c = true ->
  exists slot, edge node (char_index c) = Some slot.
Proof.
  destruct node as [l cs]. rewrite wf_Node. intros [Hlen _] Hc.
  apply lower_range in Hc. unfold edge.
  replace ((0 <=? char_index c) && (char_index c <? CHAR_SIZE)) with true
    by (symmetry; apply andb_true_iff; lia).
  cbn [character]. apply lookup_lt_is_Some_2. lia.
Qed.

Lemma edge_Some node ch slot :
  edge node ch = Some slot ->
  0 <= ch < CHAR_SIZE /\ character node !! Z.to_nat ch = Some slot.
Proof.
  unfold edge. destruct ((0 <=? ch) && (ch <? CHAR_SIZE)) eqn:E; [|discriminate].
  apply andb_true_iff in E. intros H. split; [lia|exact H].
Qed.

Lemma wf_edge_child node ch sub :
  wf node = true -> edge node ch = Some (Some sub) -> wf sub = true.
Proof.
  destruct node as [l cs]. rewrite wf_Node. intros [_ Hall] He.
  apply edge_Some in He as [_ He]. cbn [character] in He.
  exact (Forall_lookup_1 _ _ _ _ Hall He _ eq_refl).
Qed.

Lemma wf_child node c sub :
  wf node = true -> child node c = Some sub -> wf sub = true.
Proof.
  unfold child. intros Hwf H.
  destruct (edge node (char_index c)) as [[next|]|] eqn:E; try discriminate.
  injection H as <-. eapply wf_edge_child; eauto.
Qed.

Lemma wf_descend s : forall node sub,
  wf node = true -> descend node s = Some sub -> wf sub = true.
Proof.
  induction s as [|c s IH]; intros node sub Hwf H; cbn [descend] in H.
  - injection H as <-. exact Hwf.
  - destruct (child node c) as [next|] eqn:E; [|discriminate].
    cbn in H. eapply IH; [|exact H]. eapply wf_child; eauto.
Qed.

Lemma wf_default_create node ch slot :
  wf node = true -> edge node ch = Some slot -> wf (default create slot) = true.
Proof.
  intros Hwf He. destruct slot as [sub|]; cbn [default].
  - eapply wf_edge_child; eauto.
  - apply wf_create.
Qed.

Lemma wf_set_leaf node : wf node = true -> wf (Node true (character node)) = true.
Proof. destruct node as [l cs]. rewrite !wf_Node. trivial. Qed.

Lemma wf_set_slot node i sub :
  wf node = true -> wf sub = true ->
  wf (Node (isLeaf node) (<[i := Some sub]> (character node))) = true.
Proof.
  destruct node as [l cs]. rewrite !wf_Node. cbn [character isLeaf].
  intros [Hlen Hall] Hsub. split.
  - rewrite length_insert. exact Hlen.
  - apply Forall_insert; [exact Hall|]. intros ? [= <-]. exact Hsub.
Qed.

(** ** Insertion *)

Lemma char_index_inj c d : char_index c = char_index d -> c = d.
Proof.
  unfold char_index. intros H.
  assert (E : N_of_ascii c = N_of_ascii d) by lia.
  rewrite <- (ascii_N_embedding c), <- (ascii_N_embedding d). now rewrite E.
Qed.

Lemma child_edge node c slot :
  edge node (char_index c) = Some slot -> child node c = slot.
Proof. unfold child. intros ->. now destruct slot. Qed.

Lemma child_set_leaf node c :
  child (Node true (character node)) c = child node c.
Proof. reflexivity. Qed.

Lemma child_set_slot node c slot sub d :
  edge node (char_index c) = Some slot ->
  child (Node (isLeaf node) (<[Z.to_nat (char_index c) := Some sub]> (character node))) d
  = if decide (d = c) then Some sub else child node d.
Proof.
  intros He. apply edge_Some in He as [Hr Hl].
  apply lookup_lt_Some in Hl. case_decide as Hd.
  - subst d. unfold child, edge. cbn [character].
    replace ((0 <=? char_index c) && (char_index c <? CHAR_SIZE)) with true
      by (symmetry; apply andb_true_iff; lia).
    now rewrite list_lookup_insert_eq.
  - unfold child, edge. cbn [character].
    destruct ((0 <=? char_index d) && (char_index d <? CHAR_SIZE)) eqn:E;
      [|reflexivity].
    rewrite list_lookup_insert_ne; [reflexivity|].
    intros Heq. apply Hd. symmetry. apply char_index_inj.
    apply andb_true_iff in E. lia.
Qed.

Lemma descend_create s sub : descend create s = Some sub -> s = [].
Proof.
  destruct s as [|c s]; [reflexivity|]. cbn [descend]. unfold child, edge.
  destruct ((0 <=? char_index c) && (char_index c <? CHAR_SIZE)) eqn:E;
    [|discriminate].
  apply andb_true_iff in E. cbn [create character].
  rewrite lookup_replicate_2 by (unfold CHAR_SIZE in *; lia). discriminate.
Qed.

Lemma member_create s : member create s = false.
Proof.
  unfold member. destruct (descend create s) as [sub|] eqn:E; [|reflexivity].
  pose proof (descend_create _ _ E) as ->. cbn in E. now injection E as <-.
Qed.

(** On a well-formed node and a lowercase word the insertion is defined and
    keeps the node well formed. *)
Lemma insertWord_defined str : forall node,
  wf node = true -> lowercase str = true ->
  exists node', insertWord node str = Some node' /\ wf node' = true.
Proof.
  induction str as [|c rest IH]; intros node Hwf Hlow.
  - eexists. split; [reflexivity|]. now apply wf_set_leaf.
  - cbn [lowercase forallb] in Hlow. apply andb_true_iff in Hlow as [Hc Hrest].
    destruct (wf_edge node c Hwf Hc) as [slot He].
    destruct (IH (default create slot)) as (sub & Hins & Hsub);
      [eapply wf_default_create; eauto|exact Hrest|].
    cbn [insertWord]. rewrite He. cbn. rewrite Hins. cbn.
    eexists. split; [reflexivity|]. now apply wf_set_slot.
Qed.

(** What one insertion does to the dictionary view: the paths of the word's
    prefixes appear, the word itself becomes a member, nothing else moves. *)
Lemma descend_insertWord w : forall node node' s,
  insertWord node w = Some node' ->
  (is_Some (descend node' s) <-> is_Some (descend node s) \/ s `prefix_of` w)
  /\ (member node' s = true <-> member node s = true \/ s = w).
Proof.
  induction w as [|c w IH]; intros node node' s Hins.
  - injection Hins as <-. destruct s as [|d s].
    + cbn. split; [split; eauto|]. split; eauto.
    + unfold member. cbn [descend]. rewrite child_set_leaf. split.
      * split; [now left|]. intros [H|H]; [exact H|].
        now apply prefix_nil_not in H.
      * split; [now left|]. now intros [H|H].
  - cbn [insertWord] in Hins.
    destruct (edge node (char_index c)) as [slot|] eqn:He; [|discriminate].
    cbn in Hins.
    destruct (insertWord (default create slot) w) as [sub|] eqn:Hsub;
      [|discriminate].
    cbn in Hins. injection Hins as <-.
    specialize (IH _ _ (match s with [] => [] | _ :: s' => s' end) Hsub).
    destruct s as [|d s].
    + unfold member. cbn. split.
      * split; [intros _; left; eauto|eauto].
      * split; [now left|]. now intros [H|H].
    + unfold member in *. cbn [descend].
      rewrite (child_set_slot _ _ _ _ d He). case_decide as Hd.
      * subst d. rewrite (child_edge _ _ _ He). cbn.
        destruct IH as [IH1 IH2]. destruct slot as [x|]; cbn [default] in *.
        -- cbn. split.
           ++ rewrite IH1. split.
              ** intros [H|H]; [now left|right; now apply prefix_cons].
              ** intros [H|H]; [now left|right].
                 now apply prefix_cons_inv_2 in H.
           ++ rewrite IH2. split.
              ** intros [H|H]; [now left|right; now subst].
              ** intros [H|H]; [now left|right]. now injection H.
        -- cbn. split.
           ++ rewrite IH1. split.
              ** intros [[y H]|H]; right.
                 --- apply descend_create in H as ->. apply prefix_cons, prefix_nil.
                 --- now apply prefix_cons.
              ** intros [[y H]|H]; [discriminate|right].
                 now apply prefix_cons_inv_2 in H.
           ++ rewrite IH2. fold (member create s). rewrite member_create. split.
              ** intros [H|H]; [discriminate|right; now subst].
              ** intros [H|H]; [discriminate|right]. now injection H.
      * split.
        -- split; [now left|]. intros [H|H]; [exact H|].
           apply prefix_cons_inv_1 in H. contradiction.
        -- split; [now left|]. intros [H|H]; [exact H|].
           injection H as H _. contradiction.
Qed.

Lemma insertWords_cons node w words :
  insertWords node (w :: words)
  = (node' ← insertWord node w; insertWords node' words).
Proof.
  unfold insertWords. cbn [foldl]. cbn.
  destruct (insertWord node w) as [node'|]; [reflexivity|].
  cbn. induction words as [|x xs IHx]; [reflexivity|exact IHx].
Qed.

Lemma insertWords_defined words : forall node,
  wf node = true -> Forall (fun w => lowercase w = true) words ->
  exists node', insertWords node words = Some node' /\ wf node' = true.
Proof.
  induction words as [|w words IH]; intros node Hwf Hall.
  - exists node. now split.
  - inversion Hall as [|? ? Hw Hws]; subst.
    destruct (insertWord_defined w node Hwf Hw) as (n1 & H1 & Hwf1).
    destruct (IH n1 Hwf1 Hws) as (n2 & H2 & Hwf2).
    exists n2. rewrite insertWords_cons, H1. now split.
Qed.

Lemma descend_insertWords words : forall node node' s,
  insertWords node words = Some node' ->
  (is_Some (descend node' s) <->
     is_Some (descend node s) \/ exists w, In w words /\ s `prefix_of` w)
  /\ (member node' s = true <-> member node s = true \/ In s words).
Proof.
  induction words as [|w words IH]; intros node node' s H.
  - injection H as <-. split; split; eauto.
    + now intros [H|(w & [] & _)].
    + now intros [H|[]].
  - rewrite insertWords_cons in H.
    destruct (insertWord node w) as [n1|] eqn:H1; [|discriminate]. cbn in H.
    destruct (IH _ _ s H) as [IHa IHb].
    destruct (descend_insertWord _ _ _ s H1) as [Ha Hb].
    rewrite IHa, IHb, Ha, Hb. cbn [In]. split; split.
    + intros [[?|?]|(x & ? & ?)]; eauto 6.
    + intros [?|(x & [<-|?] & ?)]; eauto 6.
    + intros [[?|?]|?]; auto.
    + intros [?|[?|?]]; auto.
Qed.

(** ** The break-point query *)

Lemma first_stop_Some P n : forall i j,
  first_stop P i n = Some j <->
  i <= j < i + Z.of_nat n /\ P j = true /\ forall k, i <= k < j -> P k = false.
Proof.
  induction n as [|n IH]; intros i j; cbn [first_stop].
  - split; [discriminate|lia].
  - destruct (P i) eqn:Ei.
    + split.
      * intros [= <-]. repeat split; [lia..|trivial|lia].
      * intros (Hr & Hj & Hk). f_equal.
        destruct (Z.eq_dec i j) as [|Hne]; [trivial|].
        rewrite (Hk i) in Ei by lia. discriminate.
    + rewrite IH. split.
      * intros (Hr & Hj & Hk). repeat split; [lia..|trivial|].
        intros k Hk'. destruct (Z.eq_dec k i) as [->|]; [trivial|].
        apply Hk. lia.
      * intros (Hr & Hj & Hk).
        assert (i <> j) by (intros ->; congruence).
        repeat split; [lia..|trivial|]. intros k Hk'. apply Hk. lia.
Qed.

Lemma first_stop_None P n : forall i,
  first_stop P i n = None <-> forall k, i <= k < i + Z.of_nat n -> P k = false.
Proof.
  induction n as [|n IH]; intros i; cbn [first_stop].
  - split; [lia|trivial].
  - destruct (P i) eqn:Ei.
    + split; [discriminate|]. intros H. rewrite (H i) in Ei by lia. discriminate.
    + rewrite IH. split; intros H k Hk.
      * destruct (Z.eq_dec k i) as [->|]; [trivial|]. apply H. lia.
      * apply H. lia.
Qed.

Lemma first_stop_ext P Q n : forall i,
  (forall k, i <= k < i + Z.of_nat n -> P k = Q k) ->
  first_stop P i n = first_stop Q i n.
Proof.
  induction n as [|n IH]; intros i H; cbn [first_stop]; [reflexivity|].
  rewrite (H i) by lia. destruct (Q i); [reflexivity|].
  apply IH. intros k Hk. apply H. lia.
Qed.

Lemma char_at_Some str i :
  0 <= i < Z.of_nat (length str) -> exists c, char_at str i = Some c.
Proof.
  intros H. unfold char_at.
  replace (0 <=? i) with true by (symmetry; apply Z.leb_le; lia).
  apply lookup_lt_is_Some_2. lia.
Qed.

Lemma char_at_lower str i c :
  lowercase str = true -> char_at str i = Some c -> lower c = true.
Proof.
  unfold lowercase, char_at. rewrite forallb_forall. intros Hall H.
  destruct (0 <=? i); [|discriminate].
  apply Hall, list_elem_of_In. eapply list_elem_of_lookup_2; eauto.
Qed.

Lemma substr_cons str i j c :
  char_at str i = Some c -> i <= j ->
  substr str i j = c :: substr str (i + 1) j.
Proof.
  unfold char_at, substr. destruct (0 <=? i) eqn:Ei; [|discriminate].
  apply Z.leb_le in Ei. intros Hc Hij.
  replace (Z.to_nat (j + 1 - i)) with (S (Z.to_nat (j + 1 - (i + 1)))) by lia.
  replace (Z.to_nat (i + 1)) with (S (Z.to_nat i)) by lia.
  rewrite (drop_S _ _ _ Hc). reflexivity.
Qed.

Lemma substr_empty str i j : j < i -> substr str i j = [].
Proof.
  intros H. unfold substr. now replace (Z.to_nat (j + 1 - i)) with O by lia.
Qed.

Lemma node_at_step node str i j c :
  char_at str i = Some c -> i <= j ->
  node_at node str i j = (next ← child node c; node_at next str (i + 1) j).
Proof.
  intros Hc Hij. unfold node_at. now rewrite (substr_cons _ _ _ _ Hc Hij).
Qed.

(** The loop computes the query of the specification, whatever node and
    position it is started at. *)
Lemma isLeafBreak_loop_findBreak str end_ mid :
  lowercase str = true -> end_ < Z.of_nat (length str) ->
  forall n sub i,
    n = Z.to_nat (end_ + 1 - i) -> 0 <= i -> wf sub = true ->
    isLeafBreak_loop n sub str end_ i mid = Some (findBreak sub str i end_ mid).
Proof.
  intros Hlow Hend. induction n as [|n IH]; intros sub i Hn Hi Hwf.
  - cbn [isLeafBreak_loop]. unfold findBreak. rewrite <- Hn. cbn [first_stop].
    rewrite substr_empty by lia. reflexivity.
  - cbn [isLeafBreak_loop]. unfold findBreak. rewrite <- Hn. cbn [first_stop].
    destruct (char_at_Some str i) as [c Hc]; [lia|].
    pose proof (char_at_lower _ _ _ Hlow Hc) as Hlc.
    destruct (wf_edge sub c Hwf Hlc) as [slot He].
    rewrite Hc. cbn. rewrite He. cbn.
    assert (Hii : node_at sub str i i = slot).
    { rewrite (node_at_step _ _ _ i _ Hc) by lia.
      rewrite (child_edge _ _ _ He). destruct slot as [next|]; [|reflexivity].
      cbn. unfold node_at. now rewrite substr_empty by lia. }
    cbv zeta beta. rewrite Hii.
    destruct slot as [next|]; cbv iota beta; [|now rewrite Hii].
    destruct ((mid <=? i) && isLeaf next) eqn:Ehit; [now rewrite Hii|].
    assert (Hwf' : wf next = true) by (eapply wf_edge_child; eauto).
    rewrite (IH next (i + 1)) by (trivial; lia).
    f_equal. unfold findBreak.
    replace (Z.to_nat (end_ + 1 - (i + 1))) with n by lia.
    assert (Hna : forall j, i + 1 <= j ->
              node_at sub str i j = node_at next str (i + 1) j).
    { intros j Hj. rewrite (node_at_step _ _ _ j _ Hc) by lia.
      now rewrite (child_edge _ _ _ He). }
    symmetry. erewrite (first_stop_ext _ _ n (i + 1)).
    2:{ intros k Hk. cbv beta. rewrite Hna by lia. reflexivity. }
    destruct (first_stop _ (i + 1) n) as [j|] eqn:Efs.
    + apply first_stop_Some in Efs as (Hr & _). rewrite Hna by lia. reflexivity.
    + unfold member. fold (node_at sub str i end_).
      fold (node_at next str (i + 1) end_).
      destruct (Z.eq_dec end_ i) as [->|Hne].
      * unfold node_at. rewrite (substr_cons _ _ _ _ Hc) by lia.
        rewrite substr_empty by lia. cbn. rewrite (child_edge _ _ _ He). reflexivity.
      * rewrite Hna by lia. reflexivity.
Qed.

Lemma isLeafBreak_findBreak node str start end_ mid :
  wf node = true -> lowercase str = true ->
  0 <= start -> end_ < Z.of_nat (length str) ->
  isLeafBreak node str start end_ mid = Some (findBreak node str start end_ mid).
Proof.
  intros Hwf Hlow Hs He. unfold isLeafBreak.
  now apply isLeafBreak_loop_findBreak.
Qed.

Lemma substr_split str a k b :
  0 <= a -> a - 1 <= k -> k <= b ->
  substr str a b = substr str a k ++ substr str (k + 1) b.
Proof.
  intros Ha Hk Hb. unfold substr.
  replace (Z.to_nat (b + 1 - a))
    with (Z.to_nat (k + 1 - a) + Z.to_nat (b + 1 - (k + 1)))%nat by lia.
  rewrite <- take_take_drop, drop_drop. do 3 f_equal. lia.
Qed.

Lemma descend_app s1 s2 : forall node,
  descend node (s1 ++ s2) = (n ← descend node s1; descend n s2).
Proof.
  induction s1 as [|c s1 IH]; intros node; [reflexivity|].
  cbn [app descend]. destruct (child node c) as [next|]; [|reflexivity].
  cbn. apply IH.
Qed.

(** A path that exists has all its prefixes. *)
Lemma node_at_prefix node str start k j :
  0 <= start -> start <= k -> k <= j ->
  is_Some (node_at node str start j) -> is_Some (node_at node str start k).
Proof.
  intros Hs Hk Hj. unfold node_at.
  rewrite (substr_split str start k j) by lia. rewrite descend_app.
  destruct (descend node (substr str start k)); [eauto|].
  intros [x Hx]. discriminate.
Qed.

Lemma member_node_at node str start j :
  member node (substr str start j) = true <->
  exists n, node_at node str start j = Some n /\ isLeaf n = true.
Proof.
  unfold member, node_at. destruct (descend node (substr str start j)) as [n|].
  - split; [eauto|]. now intros (n' & [= <-] & H).
  - split; [discriminate|]. now intros (n' & H & _).
Qed.

Section FindBreak.
Variables (node : trie) (str : cstring) (start end_ mid : Z).
Hypothesis Hstart : 0 <= start.

(** The walk stops with success at [i]. *)
Lemma findBreak_hit i :
  start <= i <= end_ -> mid <= i -> terminal_at node str start i = true ->
  (forall k, start <= k < i -> mid <= k ->
     terminal_at node str start k = false) ->
  findBreak node str start end_ mid = (true, i).
Proof.
  intros Hi Hmid Ht Hfirst. unfold findBreak.
  apply member_node_at in Ht as (n & Hn & Hl).
  assert (first_stop
    (fun j => match node_at node str start j with
              | Some n => (mid <=? j) && isLeaf n
              | None => true
              end) start (Z.to_nat (end_ + 1 - start)) = Some i) as ->.
  { apply first_stop_Some. repeat split; [lia..| |].
    - rewrite Hn, Hl, andb_true_r. apply Z.leb_le. lia.
    - intros k Hk.
      destruct (node_at_prefix node str start k i) as [n' Hn']; [lia..|eauto|].
      rewrite Hn'. destruct (mid <=? k) eqn:E; [|reflexivity].
      apply Z.leb_le in E. specialize (Hfirst k Hk E). unfold terminal_at, member in Hfirst.
      fold (node_at node str start k) in Hfirst. now rewrite Hn' in Hfirst. }
  now rewrite Hn.
Qed.

(** The walk meets a missing edge before any success. *)
Lemma findBreak_missing p :
  start <= p <= end_ -> node_at node str start p = None ->
  (forall k, start <= k < p -> mid <= k ->
     terminal_at node str start k = false) ->
  findBreak node str start end_ mid = (false, mid).
Proof.
  intros Hp Hnone Hfirst. unfold findBreak.
  destruct (first_stop _ start (Z.to_nat (end_ + 1 - start))) as [j|] eqn:E.
  - apply first_stop_Some in E as (Hr & Hj & Hk).
    destruct (node_at node str start j) as [n|] eqn:Hn; [|reflexivity].
    exfalso. apply andb_true_iff in Hj as [Hm Hl]. apply Z.leb_le in Hm.
    assert (j <= p).
    { destruct (Z.le_gt_cases j p); [trivial|].
      specialize (Hk p ltac:(lia)). now rewrite Hnone in Hk. }
    assert (j <> p) by (intros ->; congruence).
    specialize (Hfirst j ltac:(lia) Hm). unfold terminal_at, member in Hfirst.
    fold (node_at node str start j) in Hfirst. rewrite Hn in Hfirst. congruence.
  - exfalso. rewrite first_stop_None in E.
    specialize (E p ltac:(lia)). now rewrite Hnone in E.
Qed.

(** The walk consumes the whole range. *)
Lemma findBreak_full :
  (forall j, start <= j <= end_ -> is_Some (node_at node str start j)) ->
  (forall k, start <= k <= end_ -> mid <= k ->
     terminal_at node str start k = false) ->
  findBreak node str start end_ mid
  = (terminal_at node str start end_, end_).
Proof.
  intros Hall Hno. unfold findBreak.
  destruct (first_stop _ start (Z.to_nat (end_ + 1 - start))) as [j|] eqn:E;
    [|reflexivity].
  exfalso. apply first_stop_Some in E as (Hr & Hj & _).
  destruct (Hall j ltac:(lia)) as [n Hn]. rewrite Hn in Hj.
  apply andb_true_iff in Hj as [Hm Hl]. apply Z.leb_le in Hm.
  specialize (Hno j ltac:(lia) Hm). unfold terminal_at, member in Hno.
  fold (node_at node str start j) in Hno. rewrite Hn in Hno. congruence.
Qed.

(** The three outcomes cover every query on a non-empty range. *)
Lemma findBreak_cases :
  start <= end_ ->
  (exists i, start <= i <= end_ /\ mid <= i
     /\ terminal_at node str start i = true
     /\ (forall k, start <= k < i -> mid <= k ->
           terminal_at node str start k = false)
     /\ findBreak node str start end_ mid = (true, i))
  \/ ((exists p, start <= p <= end_ /\ node_at node str start p = None)
      /\ (forall k, start <= k <= end_ -> mid <= k ->
            terminal_at node str start k = false)
      /\ findBreak node str start end_ mid = (false, mid))
  \/ ((forall j, start <= j <= end_ -> is_Some (node_at node str start j))
      /\ (forall k, start <= k <= end_ -> mid <= k ->
            terminal_at node str start k = false)
      /\ findBreak node str start end_ mid
         = (terminal_at node str start end_, end_)).
Proof.
  intros Hse. unfold findBreak.
  destruct (first_stop _ start (Z.to_nat (end_ + 1 - start))) as [j|] eqn:E.
  - apply first_stop_Some in E as (Hr & Hj & Hk).
    destruct (node_at node str start j) as [n|] eqn:Hn.
    + left. apply andb_true_iff in Hj as [Hm Hl]. apply Z.leb_le in Hm.
      exists j. split; [lia|]. split; [exact Hm|].
      split; [apply member_node_at; eauto|]. split; [|reflexivity].
      intros k Hk1 Hk2. specialize (Hk k Hk1).
        unfold terminal_at, member. fold (node_at node str start k).
        destruct (node_at node str start k); [|reflexivity].
        apply andb_false_iff in Hk as [Hk|Hk]; [|trivial].
        apply Z.leb_gt in Hk. lia.
    + right. left. split; [exists j; split; [lia|trivial]|]. split; [|reflexivity].
      intros k Hk1 Hk2. unfold terminal_at, member. fold (node_at node str start k).
      destruct (Z.lt_ge_cases k j) as [Hlt|Hge].
      * specialize (Hk k ltac:(lia)).
        destruct (node_at node str start k); [|reflexivity].
        apply andb_false_iff in Hk as [Hk|Hk]; [|trivial].
        apply Z.leb_gt in Hk. lia.
      * destruct (node_at node str start k) eqn:Hnk; [|reflexivity].
        destruct (node_at_prefix node str start j k) as [x Hx]; [lia..|eauto|].
        congruence.
  - right. right. rewrite first_stop_None in E.
    assert (Hall : forall j, start <= j <= end_ ->
              is_Some (node_at node str start j)).
    { intros j Hj. specialize (E j ltac:(lia)).
      destruct (node_at node str start j); [eauto|discriminate]. }
    split; [exact Hall|]. split; [|reflexivity].
    intros k Hk1 Hk2. specialize (E k ltac:(lia)).
    unfold terminal_at, member. fold (node_at node str start k).
    destruct (node_at node str start k); [|reflexivity].
    apply andb_false_iff in E as [E|E]; [|trivial]. apply Z.leb_gt in E. lia.
Qed.
End FindBreak.

(** ** The detector computes the amended procedure *)

(** Where a query on a non-empty range leaves its position argument. *)
Lemma findBreak_pos node str start end_ i :
  0 <= start -> start <= i <= end_ ->
  i <= snd (findBreak node str start end_ i) <= end_.
Proof.
  intros Hs Hi.
  destruct (findBreak_cases node str start end_ i Hs ltac:(lia))
    as [(b & Hb & Hib & _ & _ & ->)|[(_ & _ & ->)|(_ & _ & ->)]]; cbn; lia.
Qed.

Section Refinement.
Variables (node : trie) (str : cstring) (end_ : Z).
Hypothesis Hwf : wf node = true.
Hypothesis Hlow : lowercase str = true.
Hypothesis Hend : end_ < Z.of_nat (length str).

Lemma concatWord_loop_amended start d :
  0 <= start ->
  (forall s fuel, start < s -> 2 * (end_ + 1 - s) <= Z.of_nat fuel ->
     concatWord_fuel fuel node str s end_
     = Ret (swap_result (canSegment_amended_depth d node str s end_))) ->
  forall k i fuel,
    start <= i <= end_ ->
    (Z.to_nat (end_ + 1 - i) <= k)%nat ->
    2 * (end_ + 1 - i) - 1 <= Z.of_nat fuel ->
    concatWord_loop fuel node str start end_ i
    = Ret (swap_result
             (split_amended (fun s => canSegment_amended_depth d node str s end_)
                node str start end_ k i)).
Proof.
  intros Hs Hrec. induction k as [|k IH]; intros i fuel Hi Hk Hfuel; [lia|].
  destruct fuel as [|fuel]; [lia|].
  cbn [concatWord_loop split_amended].
  rewrite gtb_false by lia.
  rewrite isLeafBreak_findBreak by (trivial; lia).
  pose proof (findBreak_pos node str start end_ i Hs Hi) as Hpos.
  destruct (findBreak node str start end_ i) as [first pos]. cbn [snd] in Hpos.
  destruct (pos =? end_) eqn:Epos; [reflexivity|].
  apply Z.eqb_neq in Epos.
  rewrite Hrec by lia.
  destruct (canSegment_amended_depth d node str (pos + 1) end_)
    as [second rest]. cbn [swap_result fst snd].
  destruct (first && second); [reflexivity|].
  apply IH; lia.
Qed.

Lemma concatWord_fuel_amended d : forall start fuel,
  0 <= start ->
  (Z.to_nat (end_ + 1 - start) <= d)%nat ->
  2 * (end_ + 1 - start) <= Z.of_nat fuel ->
  concatWord_fuel fuel node str start end_
  = Ret (swap_result (canSegment_amended_depth d node str start end_)).
Proof.
  induction d as [|d IH]; intros start fuel Hs Hd Hfuel.
  - destruct fuel; cbn [concatWord_fuel canSegment_amended_depth];
      rewrite gtb_true by lia; reflexivity.
  - destruct (start >? end_) eqn:E.
    + destruct fuel; cbn [concatWord_fuel canSegment_amended_depth];
        rewrite E; reflexivity.
    + rewrite Z.gtb_ltb in E. apply Z.ltb_ge in E.
      destruct fuel as [|fuel]; [lia|].
      cbn [concatWord_fuel canSegment_amended_depth].
      rewrite gtb_false by lia.
      apply concatWord_loop_amended; [lia| |lia|lia|lia].
      intros s f Hs' Hf. apply IH; lia.
Qed.

(** More depth does not change the amended procedure. *)
Lemma canSegment_amended_depth_enough d start :
  0 <= start -> (Z.to_nat (end_ + 1 - start) <= d)%nat ->
  canSegment_amended_depth d node str start end_
  = canSegment_amended node str start end_.
Proof.
  intros Hs Hd.
  pose proof (concatWord_fuel_amended d start
                (Z.to_nat (2 * (end_ + 1 - start))) Hs Hd ltac:(lia)) as H1.
  pose proof (concatWord_fuel_amended (Z.to_nat (end_ + 1 - start)) start
                (Z.to_nat (2 * (end_ + 1 - start))) Hs ltac:(lia) ltac:(lia)) as H2.
  rewrite H1 in H2. injection H2 as H2 H3. unfold canSegment_amended.
  destruct (canSegment_amended_depth d node str start end_),
    (canSegment_amended_depth (Z.to_nat (end_ + 1 - start)) node str start end_).
  cbn in *. congruence.
Qed.

Lemma concatWord_fuel_enough start fuel :
  0 <= start -> 2 * (end_ + 1 - start) <= Z.of_nat fuel ->
  concatWord_fuel fuel node str start end_ = concatWord node str start end_.
Proof.
  intros Hs Hf. unfold concatWord.
  rewrite !(concatWord_fuel_amended (Z.to_nat (end_ + 1 - start))) by lia.
  reflexivity.
Qed.

Lemma concatWord_canSegment_amended start :
  0 <= start ->
  concatWord node str start end_
  = Ret (swap_result (canSegment_amended node str start end_)).
Proof.
  intros Hs. unfold concatWord, canSegment_amended.
  apply concatWord_fuel_amended; lia.
Qed.
End Refinement.

(** ** Partitions of a range *)

Lemma substr_length str a b :
  0 <= a -> b < Z.of_nat (length str) ->
  length (substr str a b) = Z.to_nat (b + 1 - a).
Proof.
  intros Ha Hb. unfold substr. rewrite length_take, length_drop. lia.
Qed.

Lemma substr_nonempty str a b :
  0 <= a <= b -> b < Z.of_nat (length str) -> substr str a b <> [].
Proof.
  intros Ha Hb H. apply (f_equal length) in H.
  rewrite substr_length in H by lia. cbn in H. lia.
Qed.

Lemma concat_nonempty (ps : list cstring) :
  ps <> [] -> Forall (fun p => p <> []) ps -> concat ps <> [].
Proof.
  destruct ps as [|p ps]; [congruence|]. intros _ Hall.
  inversion Hall as [|? ? Hp _]; subst. cbn [concat].
  destruct p; [congruence|discriminate].
Qed.

Section Partition.
Variables (D : cstring -> Prop) (str : cstring).

Lemma partition_single a b :
  0 <= a <= b -> b < Z.of_nat (length str) ->
  D (substr str a b) -> partition_of D (substr str a b) [substr str a b].
Proof.
  intros Ha Hb Hd. split; [discriminate|]. split.
  - cbn. apply app_nil_r.
  - constructor; [|constructor]. split; [now apply substr_nonempty|exact Hd].
Qed.

Lemma partition_cons a b e ps :
  0 <= a <= b -> b < e -> e < Z.of_nat (length str) ->
  D (substr str a b) -> partition_of D (substr str (b + 1) e) ps ->
  partition_of D (substr str a e) (substr str a b :: ps).
Proof.
  intros Ha Hb He Hd (Hne & Hcat & Hall). split; [discriminate|]. split.
  - cbn [concat]. rewrite Hcat. symmetry. apply substr_split; lia.
  - constructor; [|exact Hall]. split; [apply substr_nonempty; lia|exact Hd].
Qed.

(** The first piece of a partition ends at some position [b]; either it is
    the whole range or the other pieces cut the rest. *)
Lemma partition_inv a e ps :
  0 <= a <= e -> e < Z.of_nat (length str) ->
  partition_of D (substr str a e) ps ->
  exists b ps', ps = substr str a b :: ps' /\ a <= b <= e
    /\ D (substr str a b)
    /\ ((b = e /\ ps' = [])
        \/ (b < e /\ partition_of D (substr str (b + 1) e) ps')).
Proof.
  intros Ha He (Hne & Hcat & Hall).
  destruct ps as [|p ps']; [congruence|]. clear Hne.
  inversion Hall as [|? ? [Hp Hd] Hall']; subst. cbn [concat] in Hcat.
  assert (Hlen : (length p <= Z.to_nat (e + 1 - a))%nat).
  { apply (f_equal length) in Hcat.
    rewrite length_app, substr_length in Hcat by lia. lia. }
  assert (Hp0 : (0 < length p)%nat) by (destruct p; [congruence|cbn; lia]).
  pose (b := a + Z.of_nat (length p) - 1).
  assert (Hb : b = a + Z.of_nat (length p) - 1) by reflexivity. clearbody b.
  rewrite (substr_split str a b e) in Hcat by lia.
  apply app_inj_1 in Hcat as [Hp1 Hrest];
    [|rewrite substr_length by lia; lia].
  exists b, ps'. split; [now rewrite Hp1|]. split; [lia|]. rewrite <- Hp1.
  split; [exact Hd|].
  destruct ps' as [|q qs].
  - left. split; [|reflexivity]. cbn in Hrest.
    apply (f_equal length) in Hrest.
    rewrite substr_length in Hrest by lia. cbn in Hrest. lia.
  - right. assert (Hcne : concat (q :: qs) <> []).
    { apply concat_nonempty; [discriminate|].
      eapply Forall_impl; [exact Hall'|]. now intros ? []. }
    split.
    + destruct (Z.lt_ge_cases b e) as [|Hge]; [trivial|].
      exfalso. apply Hcne. rewrite Hrest. apply substr_empty. lia.
    + split; [discriminate|]. split; [exact Hrest|exact Hall'].
Qed.
End Partition.

(** ** The amended procedure finds a partition exactly when there is one *)

Section Search.
Variables (node : trie) (str : cstring) (end_ : Z).
Hypothesis Hend : end_ < Z.of_nat (length str).

Lemma no_partition_left start i :
  0 <= start -> start <= i <= end_ -> all_tried node str end_ start i ->
  (forall k, start <= k <= end_ -> i <= k ->
     terminal_at node str start k = false) ->
  forall ps, ~ partition_of (terminal_word node) (substr str start end_) ps.
Proof.
  intros Hs Hi Htried Hnone ps Hps.
  apply partition_inv in Hps as (b & ps' & _ & Hb & Hd & Hcase); [|lia..].
  change (terminal_at node str start b = true) in Hd.
  destruct (Z.lt_ge_cases b i) as [Hlt|Hge].
  - destruct Hcase as [[-> _]|[_ Hrest]]; [lia|].
    exact (Htried b ltac:(lia) Hd _ Hrest).
  - rewrite Hnone in Hd by lia. discriminate.
Qed.

Lemma split_amended_correct rec start :
  0 <= start ->
  (forall s, start < s <= end_ ->
     segmentation_result node str s end_ (rec s)) ->
  forall k i,
    start <= i <= end_ -> (Z.to_nat (end_ + 1 - i) <= k)%nat ->
    all_tried node str end_ start i ->
    segmentation_result node str start end_
      (split_amended rec node str start end_ k i).
Proof.
  intros Hs Hrec. induction k as [|k IH]; intros i Hi Hk Htried; [lia|].
  cbn [split_amended].
  destruct (findBreak_cases node str start end_ i Hs ltac:(lia))
    as [(b & Hb & Hib & Hterm & Hfirst & ->)
       |[(_ & Hnone & ->)|(_ & Hnone & ->)]].
  - (* a break at [b] *)
    destruct (b =? end_) eqn:Eb.
    + apply Z.eqb_eq in Eb. subst b. split; [|discriminate]. intros _.
      cbn [fst snd]. split; [lia|]. exists [substr str start end_].
      split; [reflexivity|]. apply partition_single; [lia|lia|exact Hterm].
    + apply Z.eqb_neq in Eb. pose proof (Hrec (b + 1) ltac:(lia)) as Hp.
      destruct (rec (b + 1)) as [second rest]. cbn [andb].
      destruct second.
      * destruct Hp as [Hp _]. destruct (Hp eq_refl) as (Hrest & ps & Hlen & Hps).
        cbn [fst snd] in *. split; [|discriminate]. intros _. cbn [fst snd].
        split; [lia|]. exists (substr str start b :: ps). split.
        -- cbn [length]. lia.
        -- apply partition_cons; [lia|lia|lia|exact Hterm|exact Hps].
      * destruct Hp as [_ Hp]. destruct (Hp eq_refl) as [_ Hno].
        apply IH; [lia|lia|]. intros b' Hb' Hmem.
        destruct (Z.lt_ge_cases b' i) as [Hlt|Hge];
          [apply Htried; [lia|exact Hmem]|].
        destruct (Z.eq_dec b' b) as [->|Hne]; [exact Hno|].
        rewrite Hfirst in Hmem by lia. discriminate.
  - (* a missing edge: the position stays at [i] *)
    assert (Hno : forall ps,
              ~ partition_of (terminal_word node) (substr str start end_) ps)
      by (apply (no_partition_left start i); auto).
    destruct (i =? end_) eqn:Ei.
    + split; [discriminate|]. intros _. cbn [fst snd]. now split.
    + apply Z.eqb_neq in Ei. destruct (rec (i + 1)) as [second rest].
      cbn [andb]. apply IH; [lia|lia|]. intros b' Hb' Hmem.
      destruct (Z.lt_ge_cases b' i) as [Hlt|Hge];
        [apply Htried; [lia|exact Hmem]|].
      rewrite Hnone in Hmem by lia. discriminate.
  - (* the whole range walked without a break *)
    rewrite Z.eqb_refl. rewrite (Hnone end_) by lia.
    split; [discriminate|]. intros _. cbn [fst snd]. split; [reflexivity|].
    apply (no_partition_left start i); auto.
Qed.

Lemma canSegment_amended_depth_correct d : forall start,
  0 <= start -> (Z.to_nat (end_ + 1 - start) <= d)%nat ->
  segmentation_result node str start end_
    (canSegment_amended_depth d node str start end_).
Proof.
  assert (Hempty : forall start, end_ < start ->
            segmentation_result node str start end_ (false, 0)).
  { intros start Hlt. split; [discriminate|]. intros _. cbn [fst snd].
    split; [reflexivity|]. intros ps (Hne & Hcat & Hall).
    rewrite substr_empty in Hcat by lia. revert Hcat.
    apply concat_nonempty; [exact Hne|].
    eapply Forall_impl; [exact Hall|]. now intros ? []. }
  induction d as [|d IH]; intros start Hs Hd.
  - cbn [canSegment_amended_depth]. rewrite gtb_true by lia. apply Hempty. lia.
  - cbn [canSegment_amended_depth]. destruct (start >? end_) eqn:E.
    + rewrite Z.gtb_ltb in E. apply Z.ltb_lt in E. now apply Hempty.
    + rewrite Z.gtb_ltb in E. apply Z.ltb_ge in E.
      apply split_amended_correct; [exact Hs| |lia|lia|].
      * intros s Hs'. apply IH; lia.
      * intros b Hb. lia.
Qed.

Lemma canSegment_amended_correct start :
  0 <= start ->
  segmentation_result node str start end_
    (canSegment_amended node str start end_).
Proof.
  intros Hs. unfold canSegment_amended.
  apply canSegment_amended_depth_correct; [exact Hs|lia].
Qed.
End Search.

Lemma partition_of_ext (D1 D2 : cstring -> Prop) s ps :
  (forall p, D1 p <-> D2 p) -> partition_of D1 s ps <-> partition_of D2 s ps.
Proof.
  intros H. unfold partition_of.
  assert (Hall : Forall (fun p => p <> [] /\ D1 p) ps
                 <-> Forall (fun p => p <> [] /\ D2 p) ps).
  { split; intros HF; (eapply Forall_impl; [exact HF|]);
      intros p [? ?]; split; trivial; now apply H. }
  now rewrite Hall.
Qed.

(** ** The invariant of the trie *)

Lemma descend_create_is_Some s : is_Some (descend create s) <-> s = [].
Proof.
  split.
  - intros [n H]. eapply descend_create; eauto.
  - intros ->. cbn. eauto.
Qed.

Lemma member_isLeaf node s n :
  descend node s = Some n -> member node s = isLeaf n.
Proof. unfold member. now intros ->. Qed.

Lemma trie_invariant_intro node words :
  (forall s, is_Some (descend node s) <->
             s = [] \/ exists w, In w words /\ s `prefix_of` w) ->
  (forall s, member node s = true <-> In s words) ->
  trie_invariant node words.
Proof.
  intros H1 H2 s. split; [apply H1|].
  intros n Hn. rewrite <- (member_isLeaf _ _ _ Hn). apply H2.
Qed.

Lemma trie_invariant_member node words s :
  trie_invariant node words -> (member node s = true <-> In s words).
Proof.
  intros Hinv. destruct (Hinv s) as [H1 H2]. unfold member.
  destruct (descend node s) as [n|] eqn:E.
  - now apply H2.
  - split; [discriminate|]. intros Hin. exfalso.
    assert (Hs : is_Some (@None trie)).
    { apply H1. right. exists s. split; [exact Hin|reflexivity]. }
    destruct Hs as [x Hx]. discriminate.
Qed.

Lemma trie_invariant_create : trie_invariant create [].
Proof.
  apply trie_invariant_intro.
  - intros s. rewrite descend_create_is_Some. split; [now left|].
    intros [H|(w & [] & _)]. exact H.
  - intros s. rewrite member_create. split; [discriminate|intros []].
Qed.

Lemma trie_invariant_insertWord node words w node' :
  trie_invariant node words -> insertWord node w = Some node' ->
  trie_invariant node' (words ++ [w]).
Proof.
  intros Hinv Hins. apply trie_invariant_intro; intros s.
  - rewrite (proj1 (descend_insertWord _ _ _ s Hins)).
    rewrite (proj1 (Hinv s)). split.
    + intros [[H|(x & Hx & Hp)]|H]; [now left| |].
      * right. exists x. split; [apply in_or_app; now left|exact Hp].
      * right. exists w. split; [apply in_or_app; right; now left|exact H].
    + intros [H|(x & Hx & Hp)]; [left; now left|].
      apply in_app_or in Hx as [Hx|[<-|[]]].
      * left. right. eauto.
      * now right.
  - rewrite (proj2 (descend_insertWord _ _ _ s Hins)).
    rewrite (trie_invariant_member _ _ s Hinv). rewrite in_app_iff. cbn [In].
    split; intros [H|H]; auto. destruct H as [H|[]]. auto.
Qed.

Lemma trie_invariant_insertWords words : forall node node' old,
  trie_invariant node old -> insertWords node words = Some node' ->
  trie_invariant node' (old ++ words).
Proof.
  induction words as [|w words IH]; intros node node' old Hinv H.
  - injection H as <-. now rewrite app_nil_r.
  - rewrite insertWords_cons in H.
    destruct (insertWord node w) as [n1|] eqn:H1; [|discriminate]. cbn in H.
    replace (old ++ w :: words) with ((old ++ [w]) ++ words)
      by now rewrite <- app_assoc.
    eapply IH; [|exact H]. eapply trie_invariant_insertWord; eauto.
Qed.

Lemma buildTrie_invariant words :
  Forall (fun w => lowercase w = true) words ->
  exists node, buildTrie words = Some node /\ wf node = true
    /\ trie_invariant node words.
Proof.
  intros Hall.
  destruct (insertWords_defined _ create wf_create Hall) as (node & Hb & Hwf).
  exists node. split; [exact Hb|]. split; [exact Hwf|].
  exact (trie_invariant_insertWords words create node [] trie_invariant_create Hb).
Qed.

(** ** Re-insertion *)

Lemma insertWord_idem w : forall node node',
  insertWord node w = Some node' -> insertWord node' w = Some node'.
Proof.
  induction w as [|c w IH]; intros node node' H.
  - injection H as <-. reflexivity.
  - cbn [insertWord] in H.
    destruct (edge node (char_index c)) as [slot|] eqn:He; [|discriminate].
    cbn in H.
    destruct (insertWord (default create slot) w) as [sub|] eqn:Hsub;
      [|discriminate].
    cbn in H. injection H as <-.
    pose proof (edge_Some _ _ _ He) as [Hr Hl].
    apply lookup_lt_Some in Hl.
    cbn [insertWord]. unfold edge at 1. cbn [character isLeaf].
    replace ((0 <=? char_index c) && (char_index c <? CHAR_SIZE)) with true
      by (symmetry; apply andb_true_iff; lia).
    rewrite list_lookup_insert_eq by exact Hl. cbn.
    rewrite (IH _ _ Hsub). cbn. now rewrite list_insert_insert_eq.
Qed.

Lemma insert_again_same n : forall node node' w,
  insertWord node w = Some node' -> insert_again n node' w = Some node'.
Proof.
  induction n as [|n IH]; intros node node' w H; [reflexivity|].
  cbn [insert_again]. rewrite (insertWord_idem _ _ _ H). cbn. eapply IH.
  eapply insertWord_idem; eauto.
Qed.

(** ** The loader and the driver *)

Lemma set_insert_In x s y : In y (set_insert x s) <-> y = x \/ In y s.
Proof.
  induction s as [|z s IH]; cbn [set_insert].
  - cbn. intuition.
  - destruct (x <? z)%nat; [cbn; intuition|].
    destruct (x =? z)%nat eqn:E.
    + apply Nat.eqb_eq in E. subst. cbn. intuition.
    + cbn [In]. rewrite IH. intuition.
Qed.

Lemma set_insert_sorted x s :
  StronglySorted lt s -> StronglySorted lt (set_insert x s).
Proof.
  induction s as [|z s IH]; intros Hs; cbn [set_insert].
  - repeat constructor.
  - apply StronglySorted_cons in Hs as [Hz Hs].
    destruct (x <? z)%nat eqn:E1.
    + apply Nat.ltb_lt in E1. apply StronglySorted_cons. split.
      * constructor; [exact E1|]. eapply Forall_impl; [exact Hz|].
        cbn. intros; lia.
      * apply StronglySorted_cons. now split.
    + apply Nat.ltb_ge in E1. destruct (x =? z)%nat eqn:E2.
      * apply StronglySorted_cons. now split.
      * apply Nat.eqb_neq in E2. apply StronglySorted_cons. split; [|now apply IH].
        apply Forall_forall. intros y Hy. apply list_elem_of_In in Hy.
        apply set_insert_In in Hy as [->|Hy]; [lia|].
        rewrite Forall_forall in Hz. apply Hz. now apply list_elem_of_In.
Qed.

Lemma sorted_rev (l : list nat) :
  StronglySorted lt l -> StronglySorted (fun a b => (b < a)%nat) (rev l).
Proof.
  induction l as [|x l IH]; intros Hs; [constructor|].
  apply StronglySorted_cons in Hs as [Hx Hs]. cbn [rev].
  apply StronglySorted_app. split; [|split].
  - intros a b Ha Hb. apply list_elem_of_In in Ha, Hb. cbn in Hb.
    destruct Hb as [<-|[]]. apply in_rev in Ha.
    rewrite Forall_forall in Hx. apply Hx. now apply list_elem_of_In.
  - now apply IH.
  - repeat constructor.
Qed.

Lemma ReadWordFile_snoc ws w :
  ReadWordFile (ws ++ [w]) = (st ← ReadWordFile ws; ReadWordFile_step st w).
Proof. unfold ReadWordFile. now rewrite foldl_snoc. Qed.

Lemma buildTrie_snoc ws w :
  buildTrie (ws ++ [w]) = (node ← buildTrie ws; insertWord node w).
Proof. unfold buildTrie, insertWords. now rewrite foldl_snoc. Qed.

Lemma words_of_length_insert (m : gmap nat (list cstring)) len v n :
  words_of_length (<[len := v]> m) n
  = if (n =? len)%nat then v else words_of_length m n.
Proof.
  unfold words_of_length. destruct (n =? len)%nat eqn:E.
  - apply Nat.eqb_eq in E. subst. now rewrite lookup_insert_eq.
  - apply Nat.eqb_neq in E. now rewrite lookup_insert_ne by congruence.
Qed.

(** What the loader leaves: the trie of the words, each length mapped to the
    words of that length in the order of the input, and the lengths. *)
Lemma ReadWordFile_spec words :
  Forall (fun w => lowercase w = true) words ->
  exists st,
    ReadWordFile words = Some st
    /\ buildTrie words = Some (root st) /\ wf (root st) = true
    /\ (forall n, words_of_length (wordsWithSameLen st) n
                  = List.filter (has_length n) words)
    /\ StronglySorted lt (LengthSet st)
    /\ (forall n, In n (LengthSet st) <-> exists w, In w words /\ length w = n).
Proof.
  induction words as [|w ws IH] using rev_ind; intros Hall.
  - eexists. split; [reflexivity|]. cbn [root wordsWithSameLen LengthSet].
    split; [reflexivity|]. split; [apply wf_create|]. split; [|split].
    + intros n. reflexivity.
    + constructor.
    + intros n. cbn. split; [intros []|intros (w & [] & _)].
  - apply Forall_app in Hall as [Hws Hw]. inversion Hw as [|? ? Hlow _]; subst.
    destruct (IH Hws) as (st & Hread & Hbuild & Hwf & Hmap & Hsorted & Hset).
    destruct (insertWord_defined w (root st) Hwf Hlow) as (node' & Hins & Hwf').
    rewrite ReadWordFile_snoc, buildTrie_snoc, Hread, Hbuild. cbn.
    unfold ReadWordFile_step. rewrite Hins. cbn.
    eexists. split; [reflexivity|]. cbn [root wordsWithSameLen LengthSet].
    split; [reflexivity|]. split; [exact Hwf'|]. split; [|split].
    + intros n. rewrite words_of_length_insert, List.filter_app. cbn [List.filter].
      replace (has_length n w) with (n =? length w)%nat
        by (unfold has_length; apply Nat.eqb_sym).
      destruct (n =? length w)%nat eqn:E.
      * apply Nat.eqb_eq in E. subst n. now rewrite Hmap.
      * now rewrite Hmap, app_nil_r.
    + now apply set_insert_sorted.
    + intros n. rewrite set_insert_In, Hset. split.
      * intros [->|(x & Hx & Hn)].
        -- exists w. split; [apply in_or_app; right; now left|reflexivity].
        -- exists x. split; [apply in_or_app; now left|exact Hn].
      * intros (x & Hx & Hn). apply in_app_or in Hx as [Hx|[<-|[]]].
        -- right. eauto.
        -- now left.
Qed.

Lemma compound_qualifying node w :
  wf node = true -> lowercase w = true ->
  compound node w = Ret (qualifying node w).
Proof.
  intros Hwf Hlow. unfold compound, qualifying.
  rewrite (concatWord_canSegment_amended node w (Z.of_nat (length w) - 1))
    by (trivial; lia).
  now destruct (canSegment_amended _ _ _ _).
Qed.

Lemma scan_group_spec node dict :
  wf node = true -> Forall (fun w => lowercase w = true) dict ->
  scan_group node dict = Ret (List.filter (qualifying node) dict).
Proof.
  intros Hwf. induction dict as [|w dict IH]; intros Hall; [reflexivity|].
  inversion Hall as [|? ? Hw Hrest]; subst. cbn [scan_group List.filter].
  rewrite (compound_qualifying node w Hwf Hw), (IH Hrest). reflexivity.
Qed.

Lemma scan_lengths_spec node (m : gmap nat (list cstring)) lens :
  wf node = true ->
  (forall n, Forall (fun w => lowercase w = true) (words_of_length m n)) ->
  scan_lengths node m lens
  = Ret (concat (map (fun n => List.filter (qualifying node) (words_of_length m n))
                   lens)).
Proof.
  intros Hwf Hall. induction lens as [|n lens IH]; [reflexivity|].
  cbn [scan_lengths map concat].
  rewrite (scan_group_spec node _ Hwf (Hall n)), IH. reflexivity.
Qed.

Lemma qualifying_true node w :
  qualifying node w = true <->
  exists cnt, concatWord node w 0 (Z.of_nat (length w) - 1) = Ret (cnt, true)
              /\ 1 < cnt.
Proof.
  unfold qualifying. split.
  - destruct (concatWord node w 0 (Z.of_nat (length w) - 1)) as [[cnt found]| |];
      try discriminate.
    intros H. apply andb_true_iff in H as [-> H]. apply Z.ltb_lt in H. eauto.
  - intros (cnt & -> & H). cbn. now apply Z.ltb_lt.
Qed.

(** * The claims *)

(** ** The break-point query *)

(** C2: on a well-formed trie, a lowercase word and a valid range,
    [isLeafBreak] (the specification's [findBreak]) returns success with the
    first position [i] of the range, scanning left to right, at which the
    walked node is terminal and [i >= minBreak]; it returns failure as soon as
    the walk meets a missing child edge, whatever [minBreak] is; and when the
    whole range is walked without such a hit it reports position [end] and
    succeeds exactly when the node reached at [end] is terminal. *)
Theorem isLeafBreak_first_break node str start end_ minBreak :
  wf node = true -> lowercase str = true ->
  0 <= start <= end_ -> end_ < Z.of_nat (length str) ->
  (forall i, start <= i <= end_ -> minBreak <= i ->
     terminal_at node str start i = true ->
     (forall k, start <= k < i -> minBreak <= k ->
        terminal_at node str start k = false) ->
     isLeafBreak node str start end_ minBreak = Some (true, i))
  /\ (forall p, start <= p <= end_ -> node_at node str start p = None ->
      (forall k, start <= k < p -> minBreak <= k ->
         terminal_at node str start k = false) ->
      isLeafBreak node str start end_ minBreak = Some (false, minBreak))
  /\ ((forall j, start <= j <= end_ -> is_Some (node_at node str start j)) ->
      (forall k, start <= k <= end_ -> minBreak <= k ->
         terminal_at node str start k = false) ->
      isLeafBreak node str start end_ minBreak
      = Some (terminal_at node str start end_, end_)).
Proof.
  intros Hwf Hlow Hr He.
  rewrite isLeafBreak_findBreak by (trivial; lia).
  split; [|split].
  - intros i Hi Hm Ht Hfirst. f_equal.
    apply findBreak_hit; [lia|exact Hi|exact Hm|exact Ht|exact Hfirst].
  - intros p Hp Hnone Hfirst. f_equal.
    apply (findBreak_missing node str start end_ minBreak p);
      [exact Hp|exact Hnone|exact Hfirst].
  - intros Hall Hno. f_equal.
    apply findBreak_full; [exact Hall|exact Hno].
Qed.

Lemma isLeafBreak_first_break_witness :
  wf trie1 = true /\ lowercase (cstr "catsdog") = true
  /\ isLeafBreak trie1 (cstr "catsdog") 0 6 3 = Some (true, 3).
Proof.
  split; [reflexivity|]. split; [reflexivity|].
  apply (isLeafBreak_first_break trie1 (cstr "catsdog") 0 6 3);
    [reflexivity|reflexivity|lia|cbn; lia|lia|lia|reflexivity|].
  intros k Hk1 Hk2. lia.
Defined.

(** C10: the value [isLeafBreak] leaves in its reference parameter [mid] is
    determined by the outcome: on success it is the reported break position
    (at or after the initial value, or [end] in the fall-through case); on a
    failure caused by a missing child edge it is the caller's value; on a
    failure after the whole range was walked it is [end].  [concatWord] passes
    its loop variable, so after a successful query both the [i == end] test
    and the recursive call use the break position, and so does the next
    iteration. *)
Theorem isLeafBreak_final_mid node str start end_ mid :
  wf node = true -> lowercase str = true ->
  0 <= start <= end_ -> end_ < Z.of_nat (length str) ->
  (exists r mid',
     isLeafBreak node str start end_ mid = Some (r, mid')
     /\ (r = true ->
           terminal_at node str start mid' = true /\ start <= mid' <= end_
           /\ (mid <= mid' \/ mid' = end_))
     /\ (r = false ->
           (exists p, start <= p <= end_ /\ node_at node str start p = None) ->
           mid' = mid)
     /\ (r = false ->
           (forall p, start <= p <= end_ -> is_Some (node_at node str start p)) ->
           mid' = end_))
  /\ (forall fuel b,
        mid <= end_ ->
        isLeafBreak node str start end_ mid = Some (true, b) ->
        concatWord_loop (S fuel) node str start end_ mid
        = if b =? end_ then Ret (1, true)
          else match concatWord_fuel fuel node str (b + 1) end_ with
               | Ret (cntWords, bPartTwo) =>
                   if bPartTwo then Ret (1 + cntWords, true)
                   else concatWord_loop fuel node str start end_ (b + 1)
               | Undefined => Undefined
               | OutOfFuel => OutOfFuel
               end).
Proof.
  intros Hwf Hlow Hr He. split.
  - rewrite isLeafBreak_findBreak by (trivial; lia). unfold terminal_at.
    destruct (findBreak_cases node str start end_ mid ltac:(lia) ltac:(lia))
      as [(b & Hb & Hib & Hterm & _ & ->)
         |[((p & Hp & Hnone) & _ & ->)|(Hall & _ & ->)]].
    + exists true, b. split; [reflexivity|]. split; [|split].
      * intros _. split; [exact Hterm|]. split; [lia|]. now left.
      * discriminate.
      * discriminate.
    + exists false, mid. split; [reflexivity|]. split; [|split].
      * discriminate.
      * reflexivity.
      * intros _ Hall. destruct (Hall p Hp) as [x Hx]. congruence.
    + exists (member node (substr str start end_)), end_.
      split; [reflexivity|]. split; [|split].
      * intros Ht. split; [exact Ht|]. split; [lia|]. now right.
      * intros _ (p & Hp & Hnone). destruct (Hall p Hp) as [x Hx]. congruence.
      * reflexivity.
  - intros fuel b Hmid Hq. cbn [concatWord_loop].
    rewrite gtb_false by lia. rewrite Hq. cbn [andb]. reflexivity.
Qed.

Lemma isLeafBreak_final_mid_witness :
  wf trie1 = true /\ lowercase (cstr "catsdog") = true
  /\ concatWord_loop 3 trie1 (cstr "catsdog") 0 6 0
     = match concatWord_fuel 2 trie1 (cstr "catsdog") 3 6 with
       | Ret (cntWords, bPartTwo) =>
           if bPartTwo then Ret (1 + cntWords, true)
           else concatWord_loop 2 trie1 (cstr "catsdog") 0 6 3
       | Undefined => Undefined
       | OutOfFuel => OutOfFuel
       end.
Proof.
  split; [reflexivity|]. split; [reflexivity|].
  destruct (isLeafBreak_final_mid trie1 (cstr "catsdog") 0 6 0) as [_ H];
    [reflexivity|reflexivity|lia|cbn; lia|].
  exact (H 2%nat 2 ltac:(lia) eq_refl).
Defined.

(** C5: a lowercase word inserted into a trie, whatever lowercase words are
    inserted before and after it, is found by the exact-match lookup
    [findBreak(w, 0, length-1, minBreak = length-1)]. *)
Theorem inserted_word_is_found ws1 w ws2 :
  Forall (fun x => lowercase x = true) (ws1 ++ w :: ws2) ->
  exists node,
    buildTrie (ws1 ++ w :: ws2) = Some node
    /\ isLeafBreak node w 0 (Z.of_nat (length w) - 1) (Z.of_nat (length w) - 1)
       = Some (true, Z.of_nat (length w) - 1).
Proof.
  intros Hall.
  destruct (insertWords_defined _ create wf_create Hall) as (node & Hb & Hwf).
  exists node. split; [exact Hb|].
  assert (Hlow : lowercase w = true).
  { rewrite Forall_forall in Hall. apply Hall. rewrite list_elem_of_In.
    apply in_or_app. right. now left. }
  assert (Hmem : member node w = true).
  { apply (descend_insertWords _ _ _ w Hb). right.
    apply in_or_app. right. now left. }
  rewrite isLeafBreak_findBreak by (trivial; lia).
  f_equal. destruct w as [|c w'].
  - unfold findBreak. cbn [length].
    replace (Z.to_nat (Z.of_nat 0 - 1 + 1 - 0)) with O by lia.
    cbn [first_stop]. rewrite substr_empty by lia. now rewrite Hmem.
  - assert (Hsub : substr (c :: w') 0 (Z.of_nat (length (c :: w')) - 1) = c :: w').
    { unfold substr. rewrite drop_0. apply take_ge. lia. }
    apply findBreak_hit;
      [lia|cbn [length]; lia|lia|unfold terminal_at; now rewrite Hsub|].
    intros k Hk1 Hk2. lia.
Qed.

Lemma inserted_word_is_found_witness :
  Forall (fun x => lowercase x = true) ([cstr "cat"] ++ cstr "cats" :: [cstr "dog"])
  /\ exists node,
       buildTrie ([cstr "cat"] ++ cstr "cats" :: [cstr "dog"]) = Some node
       /\ isLeafBreak node (cstr "cats") 0 3 3 = Some (true, 3).
Proof.
  assert (H : Forall (fun x => lowercase x = true)
                ([cstr "cat"] ++ cstr "cats" :: [cstr "dog"]))
    by (repeat constructor).
  split; [exact H|].
  exact (inserted_word_is_found [cstr "cat"] (cstr "cats") [cstr "dog"] H).
Defined.

(** ** The trie *)

(** C4, as stated: the invariant of the specification says
    that a node exists along [S] exactly when [S] is a prefix of an inserted
    word.  The trie that [create] returns has a root, the node along the
    empty string, before any word is inserted. *)
Lemma trie_invariant_root_counterexample :
  buildTrie [] = Some create
  /\ is_Some (descend create [])
  /\ (forall w : cstring, In w [] -> [] `prefix_of` w -> False).
Proof.
  split; [reflexivity|]. split; [cbn; eauto|]. intros w [].
Qed.

(** C4 (amended): starting from the trie of [create], after any sequence of
    [insertWord] calls with lowercase words, a node is reachable from the root
    along the letters of [S] exactly when [S] is empty (the root is always
    there) or [S] is a prefix of an inserted word, and the flag of that node
    is set exactly when [S] is an inserted word.  [create] establishes the
    invariant and every [insertWord] preserves it. *)
Theorem trie_invariant_holds :
  trie_invariant create []
  /\ (forall node words w,
        wf node = true -> lowercase w = true -> trie_invariant node words ->
        exists node', insertWord node w = Some node' /\ wf node' = true
          /\ trie_invariant node' (words ++ [w]))
  /\ (forall words,
        Forall (fun w => lowercase w = true) words ->
        exists node, buildTrie words = Some node /\ trie_invariant node words).
Proof.
  split; [exact trie_invariant_create|]. split.
  - intros node words w Hwf Hlow Hinv.
    destruct (insertWord_defined w node Hwf Hlow) as (node' & Hins & Hwf').
    exists node'. split; [exact Hins|]. split; [exact Hwf'|].
    eapply trie_invariant_insertWord; eauto.
  - intros words Hall.
    destruct (buildTrie_invariant words Hall) as (node & Hb & _ & Hinv). eauto.
Qed.

(** C8: on a well-formed trie and a lowercase word [w], inserting [w] is
    defined, and inserting it any number of further times gives a trie on
    which every [findBreak] query and every [canSegment] query returns what it
    returns on the trie with [w] inserted once. *)
Theorem insertWord_idempotent node w :
  wf node = true -> lowercase w = true ->
  exists once,
    insertWord node w = Some once
    /\ forall n, exists more,
         insert_again (S n) once w = Some more
         /\ (forall str start end_ mid,
               isLeafBreak more str start end_ mid
               = isLeafBreak once str start end_ mid)
         /\ (forall str start end_,
               concatWord more str start end_ = concatWord once str start end_)
         /\ (forall fuel str start end_,
               concatWord_fuel fuel more str start end_
               = concatWord_fuel fuel once str start end_).
Proof.
  intros Hwf Hlow.
  destruct (insertWord_defined w node Hwf Hlow) as (once & Hins & _).
  exists once. split; [exact Hins|]. intros n. exists once.
  split; [exact (insert_again_same (S n) node once w Hins)|].
  repeat split.
Qed.

Lemma insertWord_idempotent_witness :
  wf trie3 = true /\ lowercase (cstr "cats") = true
  /\ exists once,
       insertWord trie3 (cstr "cats") = Some once
       /\ forall n, exists more,
            insert_again (S n) once (cstr "cats") = Some more
            /\ (forall str start end_ mid,
                  isLeafBreak more str start end_ mid
                  = isLeafBreak once str start end_ mid)
            /\ (forall str start end_,
                  concatWord more str start end_
                  = concatWord once str start end_)
            /\ (forall fuel str start end_,
                  concatWord_fuel fuel more str start end_
                  = concatWord_fuel fuel once str start end_).
Proof.
  split; [reflexivity|]. split; [reflexivity|].
  exact (insertWord_idempotent trie3 (cstr "cats") eq_refl eq_refl).
Defined.

(** ** The detector *)

(** C7: on an empty range, [start > end], [concatWord] returns count 0 and
    flag false, whatever the trie and the word are and with any fuel: neither
    is consulted. *)
Theorem concatWord_empty_range node str start end_ :
  start > end_ ->
  concatWord node str start end_ = Ret (0, false)
  /\ forall fuel, concatWord_fuel fuel node str start end_ = Ret (0, false).
Proof.
  intros H.
  assert (Hf : forall fuel, concatWord_fuel fuel node str start end_ = Ret (0, false)).
  { intros fuel. destruct fuel; cbn [concatWord_fuel];
      rewrite gtb_true by lia; reflexivity. }
  split; [apply Hf|exact Hf].
Qed.

Lemma concatWord_empty_range_witness :
  3 > 2
  /\ concatWord trie1 (cstr "catsdog") 3 2 = Ret (0, false)
  /\ forall fuel, concatWord_fuel fuel trie1 (cstr "catsdog") 3 2 = Ret (0, false).
Proof.
  split; [lia|]. apply (concatWord_empty_range trie1 (cstr "catsdog") 3 2). lia.
Defined.

(** C3, as stated: with the dictionary ["ab"; "bc"] and the
    word "abc", the procedure of the specification, in which the position of
    steps b and c is the candidate split point of the iteration, answers
    (true, 2): the query from candidate 0 finds "ab" and the rest is taken
    from position 1, where "bc" is a word.  The code takes the rest from
    position 2, after the break, and answers count 0 and flag false. *)
Lemma canSegment_spec_counterexample :
  wf trie2 = true /\ lowercase (cstr "abc") = true
  /\ concatWord trie2 (cstr "abc") 0 2 = Ret (0, false)
  /\ Ret (swap_result (canSegment_spec trie2 (cstr "abc") 0 2)) = Ret (2, true).
Proof. repeat split. Qed.

(** C3 (amended): for every well-formed trie, lowercase word and valid range,
    [concatWord] returns what the recursive procedure of the specification
    returns once the position used in steps b and c, and from which the
    iteration resumes, is the position the break-point query leaves behind:
    the reported break position after a success, [end] after a walk of the
    whole range, the candidate itself after a missing edge.  Fuel beyond
    twice the length of the range changes nothing. *)
Theorem concatWord_refines_amended node str start end_ :
  wf node = true -> lowercase str = true ->
  0 <= start <= end_ -> end_ < Z.of_nat (length str) ->
  concatWord node str start end_
  = Ret (swap_result (canSegment_amended node str start end_))
  /\ forall fuel, 2 * (end_ + 1 - start) <= Z.of_nat fuel ->
       concatWord_fuel fuel node str start end_
       = Ret (swap_result (canSegment_amended node str start end_)).
Proof.
  intros Hwf Hlow Hr He.
  assert (H : concatWord node str start end_
              = Ret (swap_result (canSegment_amended node str start end_)))
    by (apply concatWord_canSegment_amended; trivial; lia).
  split; [exact H|]. intros fuel Hfuel. rewrite <- H.
  apply concatWord_fuel_enough; trivial; lia.
Qed.

Lemma concatWord_refines_amended_witness :
  wf trie2 = true /\ lowercase (cstr "abc") = true
  /\ concatWord trie2 (cstr "abc") 0 2
     = Ret (swap_result (canSegment_amended trie2 (cstr "abc") 0 2))
  /\ forall fuel, 2 * (2 + 1 - 0) <= Z.of_nat fuel ->
       concatWord_fuel fuel trie2 (cstr "abc") 0 2
       = Ret (swap_result (canSegment_amended trie2 (cstr "abc") 0 2)).
Proof.
  split; [reflexivity|]. split; [reflexivity|].
  apply (concatWord_refines_amended trie2 (cstr "abc") 0 2);
    [reflexivity|reflexivity|lia|cbn; lia].
Defined.

(** C9: for every well-formed trie, lowercase word and valid range,
    [concatWord] returns, and its two results are linked: the flag is false
    exactly when the count is 0, and a true flag with count [n] means that
    [n >= 1] and that the range splits into exactly [n] non-empty contiguous
    pieces, each a terminal word of the trie. *)
Theorem concatWord_count_witnessed node str start end_ :
  wf node = true -> lowercase str = true ->
  0 <= start <= end_ -> end_ < Z.of_nat (length str) ->
  exists cnt result,
    concatWord node str start end_ = Ret (cnt, result)
    /\ (forall fuel, 2 * (end_ + 1 - start) <= Z.of_nat fuel ->
          concatWord_fuel fuel node str start end_ = Ret (cnt, result))
    /\ (result = false <-> cnt = 0)
    /\ (result = true ->
          1 <= cnt /\
          exists ps, Z.of_nat (length ps) = cnt
            /\ partition_of (terminal_word node) (substr str start end_) ps).
Proof.
  intros Hwf Hlow Hr He.
  pose proof (concatWord_fuel_enough node str end_ Hwf Hlow He start) as Hfuel.
  rewrite concatWord_canSegment_amended in * by (trivial; lia).
  pose proof (canSegment_amended_correct node str end_ He start ltac:(lia))
    as [Hyes Hno].
  destruct (canSegment_amended node str start end_) as [found cnt].
  cbn [fst snd swap_result] in *.
  exists cnt, found. split; [reflexivity|].
  split; [intros fuel Hf; apply Hfuel; lia|]. split.
  - split; [intros Hf; now apply Hno|].
    intros Hc. destruct found; [|reflexivity].
    destruct (Hyes eq_refl) as [H1 _]. lia.
  - exact Hyes.
Qed.

Lemma concatWord_count_witnessed_witness :
  wf trie1 = true /\ lowercase (cstr "catsdog") = true
  /\ exists cnt result,
       concatWord trie1 (cstr "catsdog") 0 6 = Ret (cnt, result)
       /\ (forall fuel, 2 * (6 + 1 - 0) <= Z.of_nat fuel ->
             concatWord_fuel fuel trie1 (cstr "catsdog") 0 6 = Ret (cnt, result))
       /\ (result = false <-> cnt = 0)
       /\ (result = true ->
             1 <= cnt /\
             exists ps, Z.of_nat (length ps) = cnt
               /\ partition_of (terminal_word trie1)
                    (substr (cstr "catsdog") 0 6) ps).
Proof.
  split; [reflexivity|]. split; [reflexivity|].
  apply (concatWord_count_witnessed trie1 (cstr "catsdog") 0 6);
    [reflexivity|reflexivity|lia|cbn; lia].
Defined.

(** C1: for every dictionary of lowercase words inserted into the trie, every
    lowercase word and every valid range [start .. end] of it, [concatWord]
    (the specification's [canSegment]) returns, and its flag is true if and
    only if the range splits into one or more non-empty contiguous pieces,
    each a word of the dictionary; the word itself need not be in the
    dictionary, and the flag is never false when the whole range is a word of
    the dictionary. *)
Theorem concatWord_found_iff_partition (D : list cstring) str start end_ :
  Forall (fun w => lowercase w = true) D -> lowercase str = true ->
  0 <= start <= end_ -> end_ < Z.of_nat (length str) ->
  exists node cnt found,
    buildTrie D = Some node
    /\ concatWord node str start end_ = Ret (cnt, found)
    /\ (found = true <->
        exists ps, partition_of (fun p => In p D) (substr str start end_) ps)
    /\ (In (substr str start end_) D -> found = true).
Proof.
  intros HD Hlow Hr He.
  destruct (buildTrie_invariant D HD) as (node & Hb & Hwf & Hinv).
  assert (Hdict : forall p, terminal_word node p <-> In p D)
    by (intros p; apply trie_invariant_member, Hinv).
  pose proof (canSegment_amended_correct node str end_ He start ltac:(lia))
    as [Hyes Hno].
  pose proof (concatWord_canSegment_amended node str end_ Hwf Hlow He start
                ltac:(lia)) as Hrun.
  destruct (canSegment_amended node str start end_) as [found cnt].
  cbn [fst snd swap_result] in *.
  exists node, cnt, found. split; [exact Hb|]. split; [exact Hrun|].
  assert (Hiff : found = true <->
            exists ps, partition_of (fun p => In p D) (substr str start end_) ps).
  { split.
    - intros Hf. destruct (Hyes Hf) as (_ & ps & _ & Hps).
      exists ps. now apply (partition_of_ext _ _ _ _ Hdict).
    - intros (ps & Hps). destruct found; [reflexivity|].
      destruct (Hno eq_refl) as [_ Hnone]. exfalso.
      apply (Hnone ps). now apply (partition_of_ext _ _ _ _ Hdict). }
  split; [exact Hiff|].
  intros Hin. apply Hiff. exists [substr str start end_].
  apply partition_single; [lia|lia|exact Hin].
Qed.

Lemma concatWord_found_iff_partition_witness :
  Forall (fun w => lowercase w = true) dict3
  /\ lowercase (cstr "catsdog") = true
  /\ exists node cnt found,
       buildTrie dict3 = Some node
       /\ concatWord node (cstr "catsdog") 0 6 = Ret (cnt, found)
       /\ (found = true <->
           exists ps, partition_of (fun p => In p dict3)
                        (substr (cstr "catsdog") 0 6) ps)
       /\ (In (substr (cstr "catsdog") 0 6) dict3 -> found = true).
Proof.
  assert (H : Forall (fun w => lowercase w = true) dict3)
    by (repeat constructor).
  split; [exact H|]. split; [reflexivity|].
  apply (concatWord_found_iff_partition dict3 (cstr "catsdog") 0 6);
    [exact H|reflexivity|lia|cbn; lia].
Defined.

(** ** The driver *)

(** C6: on an input of lowercase words the driver writes the words for which
    [concatWord(word, 0, length-1)] returns a true flag with a count above 1,
    and only those; it writes them grouped by length, from the longest length
    present down to the shortest, and inside a group in the order in which
    the loader stored the words, the order of the input. *)
Theorem main_reports_compound_words words :
  Forall (fun w => lowercase w = true) words ->
  exists node lens out,
    buildTrie words = Some node
    /\ main_output words = Ret out
    /\ StronglySorted (fun a b => (b < a)%nat) lens
    /\ (forall n, In n lens <-> exists w, In w words /\ length w = n)
    /\ out = concat (map (fun n => List.filter (qualifying node)
                                     (List.filter (has_length n) words)) lens)
    /\ (forall w, In w out <->
          In w words /\
          exists cnt,
            concatWord node w 0 (Z.of_nat (length w) - 1) = Ret (cnt, true)
            /\ 1 < cnt).
Proof.
  intros Hall.
  destruct (ReadWordFile_spec words Hall)
    as (st & Hread & Hbuild & Hwf & Hmap & Hsorted & Hset).
  assert (Hlow : forall n, Forall (fun w => lowercase w = true)
                   (words_of_length (wordsWithSameLen st) n)).
  { intros n. rewrite Hmap. apply Forall_forall. intros w Hw.
    apply list_elem_of_In, filter_In in Hw as [Hw _].
    rewrite Forall_forall in Hall. apply Hall. now apply list_elem_of_In. }
  assert (Hout : main_output words
            = Ret (concat (map (fun n => List.filter (qualifying (root st))
                                   (List.filter (has_length n) words))
                             (rev (LengthSet st))))).
  { unfold main_output. rewrite Hread.
    rewrite (scan_lengths_spec _ _ _ Hwf Hlow). do 2 f_equal.
    apply map_ext. intros n. now rewrite Hmap. }
  exists (root st), (rev (LengthSet st)). eexists.
  split; [exact Hbuild|]. split; [exact Hout|].
  split; [now apply sorted_rev|]. split; [|split; [reflexivity|]].
  - intros n. rewrite <- in_rev. apply Hset.
  - intros w. rewrite in_concat. rewrite <- qualifying_true. split.
    + intros (l & Hl & Hw). apply in_map_iff in Hl as (n & <- & Hn).
      apply filter_In in Hw as [Hw Hq]. apply filter_In in Hw as [Hw _].
      now split.
    + intros [Hw Hq].
      exists (List.filter (qualifying (root st))
                (List.filter (has_length (length w)) words)).
      split.
      * apply in_map_iff. exists (length w). split; [reflexivity|].
        rewrite <- in_rev. apply Hset. eauto.
      * apply filter_In. split; [|exact Hq]. apply filter_In. split; [exact Hw|].
        unfold has_length. apply Nat.eqb_refl.
Qed.

Lemma main_reports_compound_words_witness :
  Forall (fun w => lowercase w = true) dict4
  /\ exists node lens out,
       buildTrie dict4 = Some node
       /\ main_output dict4 = Ret out
       /\ StronglySorted (fun a b => (b < a)%nat) lens
       /\ (forall n, In n lens <-> exists w, In w dict4 /\ length w = n)
       /\ out = concat (map (fun n => List.filter (qualifying node)
                                        (List.filter (has_length n) dict4)) lens)
       /\ (forall w, In w out <->
             In w dict4 /\
             exists cnt,
               concatWord node w 0 (Z.of_nat (length w) - 1) = Ret (cnt, true)
               /\ 1 < cnt).
Proof.
  assert (H : Forall (fun w => lowercase w = true) dict4)
    by (repeat constructor).
  split; [exact H|]. exact (main_reports_compound_words dict4 H).
Defined.

(** * Further properties of the code *)

(** ** A count of one means that the range does not split *)

Section SingleWord.
Variables (node : trie) (str : cstring) (end_ : Z).
Hypothesis Hend : end_ < Z.of_nat (length str).

Lemma split_amended_single rec start :
  0 <= start ->
  (forall s, start < s <= end_ ->
     segmentation_result node str s end_ (rec s)) ->
  forall k i,
    start <= i <= end_ -> (Z.to_nat (end_ + 1 - i) <= k)%nat ->
    all_tried node str end_ start i ->
    split_amended rec node str start end_ k i = (true, 1) ->
    forall ps,
      partition_of (terminal_word node) (substr str start end_) ps ->
      ps = [substr str start end_].
Proof.
  intros Hs Hrec. induction k as [|k IH]; intros i Hi Hk Htried; [lia|].
  cbn [split_amended].
  destruct (findBreak_cases node str start end_ i Hs ltac:(lia))
    as [(b & Hb & Hib & Hterm & Hfirst & ->)
       |[(_ & Hnone & ->)|(_ & Hnone & ->)]].
  - destruct (b =? end_) eqn:Eb.
    + apply Z.eqb_eq in Eb. subst b. intros _ ps Hps.
      apply partition_inv in Hps as (b' & ps' & -> & Hb' & Hd & Hcase);
        [|lia..].
      change (terminal_at node str start b' = true) in Hd.
      destruct Hcase as [[-> ->]|[Hlt Hrest]]; [reflexivity|exfalso].
      destruct (Z.lt_ge_cases b' i) as [Hlt'|Hge].
      * exact (Htried b' ltac:(lia) Hd _ Hrest).
      * rewrite Hfirst in Hd by lia. discriminate.
    + apply Z.eqb_neq in Eb. pose proof (Hrec (b + 1) ltac:(lia)) as Hp.
      destruct (rec (b + 1)) as [second rest]. cbn [andb].
      destruct second.
      * destruct Hp as [Hp _]. destruct (Hp eq_refl) as [Hrest _].
        cbn [snd] in Hrest. intros [= Heq]. lia.
      * destruct Hp as [_ Hp]. destruct (Hp eq_refl) as [_ Hno].
        apply IH; [lia|lia|]. intros b' Hb' Hmem.
        destruct (Z.lt_ge_cases b' i) as [Hlt|Hge];
          [apply Htried; [lia|exact Hmem]|].
        destruct (Z.eq_dec b' b) as [->|Hne]; [exact Hno|].
        rewrite Hfirst in Hmem by lia. discriminate.
  - destruct (i =? end_) eqn:Ei; [discriminate|].
    apply Z.eqb_neq in Ei. destruct (rec (i + 1)) as [second rest].
    cbn [andb]. apply IH; [lia|lia|]. intros b' Hb' Hmem.
    destruct (Z.lt_ge_cases b' i) as [Hlt|Hge];
      [apply Htried; [lia|exact Hmem]|].
    rewrite Hnone in Hmem by lia. discriminate.
  - rewrite Z.eqb_refl. rewrite (Hnone end_) by lia. discriminate.
Qed.

Lemma canSegment_amended_single start :
  0 <= start <= end_ ->
  canSegment_amended node str start end_ = (true, 1) ->
  forall ps,
    partition_of (terminal_word node) (substr str start end_) ps ->
    ps = [substr str start end_].
Proof.
  intros Hs. unfold canSegment_amended.
  destruct (Z.to_nat (end_ + 1 - start)) as [|d] eqn:Ed; [lia|].
  cbn [canSegment_amended_depth]. rewrite gtb_false by lia.
  rewrite Ed. apply split_amended_single; [lia| |lia|lia|].
  - intros s Hs'. apply canSegment_amended_depth_correct; [exact Hend|lia|lia].
  - intros b Hb. lia.
Qed.

(** The count is above one exactly when the range splits into two or more
    words. *)
Lemma canSegment_amended_compound start :
  0 <= start <= end_ ->
  (fst (canSegment_amended node str start end_) = true
   /\ 1 < snd (canSegment_amended node str start end_))
  <-> exists ps, (2 <= length ps)%nat
        /\ partition_of (terminal_word node) (substr str start end_) ps.
Proof.
  intros Hs.
  pose proof (canSegment_amended_correct node str end_ Hend start ltac:(lia))
    as [Hyes Hno].
  pose proof (canSegment_amended_single start Hs) as Hone.
  destruct (canSegment_amended node str start end_) as [found cnt].
  cbn [fst snd] in *. split.
  - intros [-> Hcnt]. destruct (Hyes eq_refl) as (_ & ps & Hlen & Hps).
    exists ps. split; [lia|exact Hps].
  - intros (ps & Hlen & Hps). destruct found.
    + split; [reflexivity|]. destruct (Hyes eq_refl) as [Hge _].
      destruct (Z.eq_dec cnt 1) as [->|]; [|lia].
      rewrite (Hone eq_refl ps Hps) in Hlen. cbn in Hlen. lia.
    + destruct (Hno eq_refl) as [_ Hnone]. exfalso. exact (Hnone ps Hps).
Qed.
End SingleWord.

(** The whole word as a range. *)
Lemma substr_whole (w : cstring) : substr w 0 (Z.of_nat (length w) - 1) = w.
Proof. unfold substr. rewrite drop_0. apply take_ge. lia. Qed.

(** The test of the driver, in terms of the dictionary. *)
Lemma qualifying_compound node w :
  wf node = true -> lowercase w = true ->
  qualifying node w = true
  <-> exists ps, (2 <= length ps)%nat /\ partition_of (terminal_word node) w ps.
Proof.
  intros Hwf Hlow. unfold qualifying.
  rewrite (concatWord_canSegment_amended node w (Z.of_nat (length w) - 1))
    by (trivial; lia).
  destruct w as [|c w'].
  - cbn. split; [discriminate|].
    intros (ps & Hlen & Hne & Hcat & Hall). exfalso. revert Hcat.
    apply concat_nonempty; [exact Hne|].
    eapply Forall_impl; [exact Hall|]. now intros ? [].
  - pose proof (canSegment_amended_compound node (c :: w')
                  (Z.of_nat (length (c :: w')) - 1) ltac:(lia) 0
                  ltac:(cbn [length]; lia)) as H.
    rewrite substr_whole in H. rewrite <- H.
    destruct (canSegment_amended _ _ _ _) as [found cnt].
    cbn [swap_result fst snd]. rewrite andb_true_iff, Z.ltb_lt. reflexivity.
Qed.

(** What the driver writes, word by word. *)
Lemma main_output_In words :
  Forall (fun w => lowercase w = true) words ->
  exists node out,
    buildTrie words = Some node /\ wf node = true
    /\ trie_invariant node words
    /\ main_output words = Ret out
    /\ out = concat (map (fun n => List.filter (qualifying node)
                                     (List.filter (has_length n) words))
                       (rev (LengthSet (default (WordIndex create ∅ [])
                                          (ReadWordFile words)))))
    /\ (forall w, In w out <-> In w words /\ qualifying node w = true).
Proof.
  intros Hall.
  destruct (ReadWordFile_spec words Hall)
    as (st & Hread & Hbuild & Hwf & Hmap & Hsorted & Hset).
  destruct (buildTrie_invariant words Hall) as (node & Hb & _ & Hinv).
  assert (node = root st) by congruence. subst node.
  assert (Hlow : forall n, Forall (fun w => lowercase w = true)
                   (words_of_length (wordsWithSameLen st) n)).
  { intros n. rewrite Hmap. apply Forall_forall. intros w Hw.
    apply list_elem_of_In, filter_In in Hw as [Hw _].
    rewrite Forall_forall in Hall. apply Hall. now apply list_elem_of_In. }
  exists (root st). eexists.
  split; [exact Hbuild|]. split; [exact Hwf|]. split; [exact Hinv|].
  split; [|split; [reflexivity|]].
  - unfold main_output. rewrite Hread.
    rewrite (scan_lengths_spec _ _ _ Hwf Hlow). do 2 f_equal.
    apply map_ext. intros n. now rewrite Hmap.
  - rewrite Hread. cbn [default]. intros w. rewrite in_concat. split.
    + intros (l & Hl & Hw). apply in_map_iff in Hl as (n & <- & Hn).
      apply filter_In in Hw as [Hw Hq]. apply filter_In in Hw as [Hw _].
      now split.
    + intros [Hw Hq].
      exists (List.filter (qualifying (root st))
                (List.filter (has_length (length w)) words)).
      split.
      * apply in_map_iff. exists (length w). split; [reflexivity|].
        rewrite <- in_rev. apply Hset. eauto.
      * apply filter_In. split; [|exact Hq]. apply filter_In. split; [exact Hw|].
        unfold has_length. apply Nat.eqb_refl.
Qed.

(** ** Insertion: when it is defined, what it leaves alone, how it composes *)

Lemma in_range_true ch :
  0 <= ch < CHAR_SIZE -> (0 <=? ch) && (ch <? CHAR_SIZE) = true.
Proof. intros H. apply andb_true_iff. lia. Qed.

Lemma edge_not_lower node c : lower c = false -> edge node (char_index c) = None.
Proof. unfold lower, edge. now intros ->. Qed.

Lemma insertWord_not_lowercase w : forall node,
  lowercase w = false -> insertWord node w = None.
Proof.
  induction w as [|c w IH]; intros node H; [discriminate|].
  cbn [lowercase forallb] in H. cbn [insertWord].
  destruct (lower c) eqn:Ec.
  - destruct (edge node (char_index c)) as [slot|]; [|reflexivity]. cbn.
    now rewrite IH.
  - now rewrite edge_not_lower.
Qed.

(** A word that is already there: nothing changes. *)
Lemma insertWord_present w : forall node,
  member node w = true -> insertWord node w = Some node.
Proof.
  induction w as [|c w IH]; intros node H.
  - unfold member in H. cbn in H. destruct node as [l cs]. cbn in *. now subst.
  - unfold member in H. cbn [descend] in H. unfold child in H.
    destruct (edge node (char_index c)) as [[sub|]|] eqn:He; try discriminate.
    cbn in H. cbn [insertWord]. rewrite He. cbn.
    rewrite (IH sub) by exact H. cbn.
    apply edge_Some in He as [_ He]. rewrite list_insert_id by exact He.
    now destruct node.
Qed.

(** Setting the flag of a node and inserting below it commute. *)
Lemma insertWord_flagged node w :
  insertWord (Node true (character node)) w
  = (n ← insertWord node w; Some (Node true (character n))).
Proof.
  destruct w as [|c w]; [reflexivity|]. cbn [insertWord].
  change (edge (Node true (character node)) (char_index c))
    with (edge node (char_index c)).
  destruct (edge node (char_index c)) as [slot|]; [|reflexivity]. cbn.
  destruct (insertWord (default create slot) w); reflexivity.
Qed.

Lemma edge_set_slot_same node ch v slot :
  edge node ch = Some slot ->
  edge (Node (isLeaf node) (<[Z.to_nat ch := v]> (character node))) ch = Some v.
Proof.
  intros He. apply edge_Some in He as [Hr Hl]. apply lookup_lt_Some in Hl.
  unfold edge. rewrite in_range_true by exact Hr. cbn [character].
  now apply list_lookup_insert_eq.
Qed.

Lemma edge_set_slot_other node ch ch' v :
  ch <> ch' -> 0 <= ch ->
  edge (Node (isLeaf node) (<[Z.to_nat ch := v]> (character node))) ch'
  = edge node ch'.
Proof.
  intros Hne Hch. unfold edge. cbn [character].
  destruct ((0 <=? ch') && (ch' <? CHAR_SIZE)) eqn:E; [|reflexivity].
  apply andb_true_iff in E. apply list_lookup_insert_ne. lia.
Qed.

(** Two insertions in either order. *)
Lemma insertWord_comm w1 : forall w2 node,
  (n ← insertWord node w1; insertWord n w2)
  = (n ← insertWord node w2; insertWord n w1).
Proof.
  induction w1 as [|c1 r1 IH]; intros w2 node.
  - cbn [insertWord]. cbn. rewrite insertWord_flagged.
    destruct (insertWord node w2); reflexivity.
  - destruct w2 as [|c2 r2].
    + change (n ← insertWord node []; insertWord n (c1 :: r1))
        with (insertWord (Node true (character node)) (c1 :: r1)).
      rewrite insertWord_flagged.
      destruct (insertWord node (c1 :: r1)); reflexivity.
    + destruct (decide (c1 = c2)) as [->|Hne].
      * cbn [insertWord].
        destruct (edge node (char_index c2)) as [slot|] eqn:He; [|reflexivity].
        cbn. specialize (IH r2 (default create slot)).
        destruct (insertWord (default create slot) r1) as [s1|] eqn:H1;
          destruct (insertWord (default create slot) r2) as [s2|] eqn:H2;
          cbn in IH |- *; try reflexivity.
        -- rewrite !(edge_set_slot_same _ _ _ _ He). cbn.
           rewrite IH. destruct (insertWord s2 r1); [|reflexivity]. cbn.
           now rewrite !list_insert_insert_eq.
        -- rewrite (edge_set_slot_same _ _ _ _ He). cbn. now rewrite IH.
        -- rewrite (edge_set_slot_same _ _ _ _ He). cbn. now rewrite <- IH.
      * assert (Hidx : char_index c1 <> char_index c2)
          by (intros H; apply Hne; now apply char_index_inj).
        cbn [insertWord].
        destruct (edge node (char_index c1)) as [slot1|] eqn:He1;
          destruct (edge node (char_index c2)) as [slot2|] eqn:He2; cbn.
        -- pose proof (edge_Some _ _ _ He1) as [Hr1 _].
           pose proof (edge_Some _ _ _ He2) as [Hr2 _].
           destruct (insertWord (default create slot1) r1) as [s1|] eqn:H1;
             destruct (insertWord (default create slot2) r2) as [s2|] eqn:H2;
             cbn.
           ++ rewrite edge_set_slot_other by lia.
              rewrite edge_set_slot_other by lia.
              rewrite He1, He2. cbn. rewrite H1, H2. cbn.
              rewrite list_insert_insert_ne by lia. reflexivity.
           ++ rewrite edge_set_slot_other by lia. rewrite He2. cbn.
              now rewrite H2.
           ++ rewrite edge_set_slot_other by lia. rewrite He1. cbn.
              now rewrite H1.
           ++ reflexivity.
        -- destruct (insertWord (default create slot1) r1) as [s1|];
             [|reflexivity].
           cbn. pose proof (edge_Some _ _ _ He1) as [Hr1 _].
           rewrite edge_set_slot_other by lia. now rewrite He2.
        -- destruct (insertWord (default create slot2) r2) as [s2|];
             [|reflexivity].
           cbn. pose proof (edge_Some _ _ _ He2) as [Hr2 _].
           rewrite edge_set_slot_other by lia. now rewrite He1.
        -- reflexivity.
Qed.

Lemma insertWords_perm ws ws' :
  Permutation ws ws' ->
  forall node, insertWords node ws = insertWords node ws'.
Proof.
  induction 1 as [|x l l' _ IH|x y l|l l' l'' _ IH1 _ IH2]; intros node.
  - reflexivity.
  - rewrite !insertWords_cons. destruct (insertWord node x); [apply IH|reflexivity].
  - rewrite !insertWords_cons.
    pose proof (insertWord_comm y x node) as Hc.
    destruct (insertWord node y) as [n1|] eqn:H1;
      destruct (insertWord node x) as [n2|] eqn:H2;
      cbn [mbind option_bind] in Hc |- *.
    + rewrite !insertWords_cons. rewrite Hc. reflexivity.
    + rewrite insertWords_cons, Hc. reflexivity.
    + rewrite insertWords_cons, <- Hc. reflexivity.
    + reflexivity.
  - now rewrite IH1, IH2.
Qed.

(** ** Queries: the exact lookup, the empty trie, the flag of the root *)

(** With [mid] at or beyond the end of the range, the query answers whether
    the whole range is a word of the trie. *)
Lemma findBreak_exact node str start end_ mid :
  0 <= start -> end_ <= mid ->
  fst (findBreak node str start end_ mid) = terminal_at node str start end_.
Proof.
  intros Hs Hmid. destruct (Z.lt_ge_cases end_ start) as [Hlt|Hge].
  - unfold findBreak. replace (Z.to_nat (end_ + 1 - start)) with O by lia.
    reflexivity.
  - destruct (findBreak_cases node str start end_ mid Hs Hge)
      as [(b & Hb & Hib & Hterm & _ & ->)
         |[((p & Hp & Hnone) & _ & ->)|(_ & _ & ->)]]; cbn [fst].
    + assert (b = end_) as -> by lia. now rewrite Hterm.
    + symmetry. unfold terminal_at, member. fold (node_at node str start end_).
      destruct (node_at node str start end_) as [n|] eqn:Hn; [|reflexivity].
      destruct (node_at_prefix node str start p end_) as [x Hx];
        [lia..|eauto|congruence].
    + reflexivity.
Qed.

Lemma node_at_create str start j :
  0 <= start <= j -> start < Z.of_nat (length str) ->
  node_at create str start j = None.
Proof.
  intros Hs Hlen. destruct (char_at_Some str start) as [c Hc]; [lia|].
  rewrite (node_at_step _ _ _ _ _ Hc) by lia.
  destruct (child create c) as [n|] eqn:E; [|reflexivity].
  assert (H : descend create [c] = Some n) by (cbn; now rewrite E).
  apply descend_create in H. discriminate.
Qed.

(** The flag of the node a query starts from is not read on a non-empty
    range. *)
Lemma isLeafBreak_root_flag node l str start end_ mid :
  start <= end_ ->
  isLeafBreak (Node l (character node)) str start end_ mid
  = isLeafBreak node str start end_ mid.
Proof.
  intros H. unfold isLeafBreak.
  destruct (Z.to_nat (end_ + 1 - start)) as [|n] eqn:E; [lia|].
  reflexivity.
Qed.

Lemma concatWord_fuel_root_flag node l str end_ fuel :
  (forall start,
     concatWord_fuel fuel (Node l (character node)) str start end_
     = concatWord_fuel fuel node str start end_)
  /\ (forall start i, start <= end_ ->
        concatWord_loop fuel (Node l (character node)) str start end_ i
        = concatWord_loop fuel node str start end_ i).
Proof.
  induction fuel as [|fuel [IHw IHl]].
  - split; intros; reflexivity.
  - split.
    + intros start. cbn [concatWord_fuel].
      destruct (start >? end_) eqn:E; [reflexivity|].
      rewrite Z.gtb_ltb in E. apply Z.ltb_ge in E. now apply IHl.
    + intros start i Hs. cbn [concatWord_loop].
      rewrite isLeafBreak_root_flag by exact Hs.
      destruct (i >? end_); [reflexivity|].
      destruct (isLeafBreak node str start end_ i) as [[b i']|]; [|reflexivity].
      destruct (i' =? end_); [reflexivity|].
      rewrite IHw. rewrite IHl by exact Hs. reflexivity.
Qed.

(** ** The loader and the report of the driver *)

(** The keys of the map are the lengths of the words read. *)
Lemma ReadWordFile_keys words :
  Forall (fun w => lowercase w = true) words ->
  exists st,
    ReadWordFile words = Some st
    /\ forall n, is_Some (wordsWithSameLen st !! n)
                 <-> exists w, In w words /\ length w = n.
Proof.
  induction words as [|w ws IH] using rev_ind; intros Hall.
  - eexists. split; [reflexivity|]. intros n. cbn [wordsWithSameLen].
    rewrite lookup_empty. split; [intros [x Hx]; discriminate|].
    intros (w & [] & _).
  - apply Forall_app in Hall as [Hws Hw]. inversion Hw as [|? ? Hlow _]; subst.
    destruct (IH Hws) as (st & Hread & Hkeys).
    destruct (ReadWordFile_spec ws Hws) as (st' & Hread' & _ & Hwf & _).
    assert (st' = st) by congruence. subst st'.
    destruct (insertWord_defined w (root st) Hwf Hlow) as (node' & Hins & _).
    rewrite ReadWordFile_snoc, Hread. cbn.
    unfold ReadWordFile_step. rewrite Hins. cbn.
    eexists. split; [reflexivity|]. cbn [wordsWithSameLen]. intros n.
    destruct (decide (n = length w)) as [->|Hne].
    + rewrite lookup_insert_eq. split; [|eauto].
      intros _. exists w. split; [apply in_or_app; right; now left|reflexivity].
    + rewrite lookup_insert_ne by congruence. rewrite Hkeys. split.
      * intros (x & Hx & Hn). exists x. split; [apply in_or_app; now left|exact Hn].
      * intros (x & Hx & Hn). apply in_app_or in Hx as [Hx|[<-|[]]];
          [eauto|congruence].
Qed.

Lemma ReadWordFile_not_lowercase words :
  ~ Forall (fun w => lowercase w = true) words -> ReadWordFile words = None.
Proof.
  induction words as [|w ws IH] using rev_ind; intros H.
  - exfalso. apply H. constructor.
  - rewrite ReadWordFile_snoc.
    destruct (ReadWordFile ws) as [st|] eqn:Hread; [|reflexivity]. cbn.
    unfold ReadWordFile_step.
    destruct (lowercase w) eqn:Hlow.
    + exfalso.
      destruct (forallb lowercase ws) eqn:Eall.
      * apply H. apply Forall_app. split; [|now constructor].
        apply Forall_forall. intros x Hx. apply list_elem_of_In in Hx.
        rewrite forallb_forall in Eall. now apply Eall.
      * assert (Hnot : ~ Forall (fun w => lowercase w = true) ws).
        { intros Hws.
          assert (forallb lowercase ws = true); [|congruence].
          apply forallb_forall. intros x Hx. rewrite Forall_forall in Hws.
          apply Hws. now apply list_elem_of_In. }
        specialize (IH Hnot). congruence.
    + now rewrite insertWord_not_lowercase.
Qed.

(** The two loops with the counters, in terms of the loops that only collect
    the words written. *)
Lemma run_group_scan node dict : forall r,
  run_group node dict r
  = match scan_group node dict with
    | Ret out => Ret (foldl emit r out)
    | Undefined => Undefined
    | OutOfFuel => OutOfFuel
    end.
Proof.
  induction dict as [|w dict IH]; intros r; [reflexivity|].
  cbn [run_group scan_group].
  destruct (compound node w) as [q| |]; [|reflexivity|reflexivity].
  rewrite IH. destruct (scan_group node dict) as [out| |];
    [|reflexivity|reflexivity].
  now destruct q.
Qed.

Lemma run_lengths_scan node (m : gmap nat (list cstring)) lens : forall r,
  run_lengths node m lens r
  = match scan_lengths node m lens with
    | Ret out => Ret (foldl emit r out)
    | Undefined => Undefined
    | OutOfFuel => OutOfFuel
    end.
Proof.
  induction lens as [|n lens IH]; intros r; [reflexivity|].
  cbn [run_lengths scan_lengths]. rewrite run_group_scan.
  destruct (scan_group node (words_of_length m n)) as [out1| |];
    [|reflexivity|reflexivity].
  rewrite IH. destruct (scan_lengths node m lens) as [out2| |];
    [|reflexivity|reflexivity].
  now rewrite foldl_app.
Qed.

Lemma main_report_output words :
  main_report words
  = match main_output words with
    | Ret out => Ret (foldl emit (Report None None 0 []) out)
    | Undefined => Undefined
    | OutOfFuel => OutOfFuel
    end.
Proof.
  unfold main_report, main_output.
  destruct (ReadWordFile words) as [st|]; [|reflexivity].
  apply run_lengths_scan.
Qed.

(** After any number of words written: the counter is the number of lines of
    the file, the two words printed are its first two lines. *)
Lemma emit_all out : forall r,
  foundWords r = length (foundWordsFile r) ->
  longest r = head (foundWordsFile r) ->
  second_longest r = foundWordsFile r !! 1%nat ->
  let r' := foldl emit r out in
  foundWordsFile r' = foundWordsFile r ++ out
  /\ foundWords r' = length (foundWordsFile r')
  /\ longest r' = head (foundWordsFile r')
  /\ second_longest r' = foundWordsFile r' !! 1%nat.
Proof.
  induction out as [|w out IH]; intros r H1 H2 H3.
  - cbn. rewrite app_nil_r. auto.
  - cbn [foldl].
    destruct (IH (emit r w)) as (Hf & Hrest).
    + cbn. rewrite length_app. cbn. lia.
    + cbn. rewrite H1. destruct (foundWordsFile r) as [|x xs]; [reflexivity|].
      cbn. exact H2.
    + cbn. rewrite H1. destruct (foundWordsFile r) as [|x [|y ys]];
        cbn in *; [exact H3|reflexivity|exact H3].
    + cbv zeta. split; [|exact Hrest]. rewrite Hf. cbn.
      now rewrite <- app_assoc.
Qed.

(** The words are written longest first. *)
Lemma groups_sorted (q : cstring -> bool) words lens :
  StronglySorted (fun a b => (b < a)%nat) lens ->
  StronglySorted (fun v w : cstring => (length w <= length v)%nat)
    (concat (map (fun n => List.filter q (List.filter (has_length n) words))
               lens)).
Proof.
  induction lens as [|n lens IH]; intros Hs; [constructor|].
  apply StronglySorted_cons in Hs as [Hn Hs]. cbn [map concat].
  assert (Hgroup : forall m w,
            In w (List.filter q (List.filter (has_length m) words)) ->
            length w = m).
  { intros m w Hw. apply filter_In in Hw as [Hw _].
    apply filter_In in Hw as [_ Hw]. now apply Nat.eqb_eq in Hw. }
  apply StronglySorted_app. split; [|split].
  - intros v w Hv Hw. apply list_elem_of_In in Hv, Hw.
    apply Hgroup in Hv. apply in_concat in Hw as (l & Hl & Hw).
    apply in_map_iff in Hl as (m & <- & Hm). apply Hgroup in Hw.
    rewrite Forall_forall in Hn. apply list_elem_of_In, Hn in Hm. lia.
  - clear -Hgroup.
    assert (H : forall l : list cstring,
              (forall w, In w l -> length w = n) ->
              StronglySorted (fun v w : cstring => (length w <= length v)%nat) l).
    { induction l as [|x l IHl]; intros Hl; [constructor|].
      apply StronglySorted_cons. split.
      - apply Forall_forall. intros y Hy. apply list_elem_of_In in Hy.
        rewrite (Hl x), (Hl y) by (cbn; auto). lia.
      - apply IHl. intros w Hw. apply Hl. now right. }
    apply H. intros w. apply Hgroup.
  - now apply IH.
Qed.

(** ** The first split that works is the one returned *)

Lemma split_amended_first rec node str start end_ b :
  0 <= start ->
  terminal_at node str start b = true ->
  (b = end_ \/ fst (rec (b + 1)) = true) ->
  forall k i,
    start <= i <= b -> b <= end_ -> (Z.to_nat (end_ + 1 - i) <= k)%nat ->
    (forall b', i <= b' < b -> terminal_at node str start b' = true ->
       fst (rec (b' + 1)) = false) ->
    split_amended rec node str start end_ k i
    = if b =? end_ then (true, 1) else (true, 1 + snd (rec (b + 1))).
Proof.
  intros Hs Hterm Hviable. induction k as [|k IH]; intros i Hi Hb Hk Hmin; [lia|].
  cbn [split_amended].
  destruct (findBreak_cases node str start end_ i Hs ltac:(lia))
    as [(b0 & Hb0 & Hib0 & Hterm0 & Hfirst & ->)
       |[(_ & Hnone & ->)|(_ & Hnone & ->)]].
  - assert (Hle : b0 <= b).
    { destruct (Z.le_gt_cases b0 b); [trivial|].
      rewrite Hfirst in Hterm by lia. discriminate. }
    destruct (Z.eq_dec b0 b) as [->|Hne].
    + destruct (b =? end_) eqn:Eb; [reflexivity|].
      apply Z.eqb_neq in Eb. destruct Hviable as [->|Hv]; [lia|].
      destruct (rec (b + 1)) as [second rest]. cbn [fst snd] in *.
      now subst second.
    + replace (b0 =? end_) with false by (symmetry; apply Z.eqb_neq; lia).
      pose proof (Hmin b0 ltac:(lia) Hterm0) as Hb0f.
      destruct (rec (b0 + 1)) as [second rest]. cbn [fst] in Hb0f.
      subst second. cbn [andb].
      apply IH; [lia|lia|lia|]. intros b' Hb'. apply Hmin. lia.
  - rewrite Hnone in Hterm by lia. discriminate.
  - rewrite Hnone in Hterm by lia. discriminate.
Qed.

Section FirstSplit.
Variables (node : trie) (str : cstring) (end_ : Z).
Hypothesis Hwf : wf node = true.
Hypothesis Hlow : lowercase str = true.
Hypothesis Hend : end_ < Z.of_nat (length str).

Lemma canSegment_amended_first start b :
  0 <= start <= b -> b <= end_ ->
  terminal_at node str start b = true ->
  (b = end_ \/ fst (canSegment_amended node str (b + 1) end_) = true) ->
  (forall b', start <= b' < b -> terminal_at node str start b' = true ->
     fst (canSegment_amended node str (b' + 1) end_) = false) ->
  canSegment_amended node str start end_
  = if b =? end_ then (true, 1)
    else (true, 1 + snd (canSegment_amended node str (b + 1) end_)).
Proof.
  intros Hs Hb Hterm Hviable Hmin. unfold canSegment_amended at 1.
  destruct (Z.to_nat (end_ + 1 - start)) as [|d] eqn:Ed; [lia|].
  cbn [canSegment_amended_depth]. rewrite gtb_false by lia. rewrite Ed.
  assert (Hd : forall s, start < s ->
            canSegment_amended_depth d node str s end_
            = canSegment_amended node str s end_).
  { intros s Hs'.
    apply (canSegment_amended_depth_enough node str end_ Hwf Hlow Hend); lia. }
  rewrite (split_amended_first _ node str start end_ b); try lia; trivial.
  - now rewrite Hd by lia.
  - destruct Hviable as [->|Hv]; [now left|right]. now rewrite Hd by lia.
  - intros b' Hb' Ht. rewrite Hd by lia. now apply Hmin.
Qed.
End FirstSplit.

(** ** Allocation *)

Lemma nodes_Node l cs : nodes (Node l cs) = S (list_sum (map slot_nodes cs)).
Proof. reflexivity. Qed.

Lemma list_sum_insert (cs : list (option trie)) : forall i slot v,
  cs !! i = Some slot ->
  (list_sum (map slot_nodes (<[i := v]> cs)) + slot_nodes slot
   = list_sum (map slot_nodes cs) + slot_nodes v)%nat.
Proof.
  induction cs as [|x cs IH]; intros i slot v H; [discriminate|].
  destruct i as [|i]; simpl in *.
  - injection H as ->. lia.
  - specialize (IH i slot v H). lia.
Qed.

Lemma nodes_create : nodes create = 1%nat.
Proof. reflexivity. Qed.

Lemma shared_prefix_create w : shared_prefix create w = O.
Proof.
  destruct w as [|c w]; [reflexivity|]. cbn [shared_prefix].
  destruct (child create c) as [n|] eqn:E; [|reflexivity].
  assert (H : descend create [c] = Some n) by (cbn; now rewrite E).
  apply descend_create in H. discriminate.
Qed.

Lemma shared_prefix_le w : forall node,
  (shared_prefix node w <= length w)%nat.
Proof.
  induction w as [|c w IH]; intros node; cbn [shared_prefix length]; [lia|].
  destruct (child node c) as [n|]; [|lia]. specialize (IH n). lia.
Qed.

(** The paths of the trie along [w] are its first [shared_prefix] letters. *)
Lemma shared_prefix_descend w : forall node k,
  (k <= length w)%nat ->
  (is_Some (descend node (take k w)) <-> (k <= shared_prefix node w)%nat).
Proof.
  induction w as [|c w IH]; intros node k Hk.
  - cbn in Hk. assert (k = O) by lia. subst. cbn. split; eauto.
  - destruct k as [|k]; [cbn; split; [lia|eauto]|].
    cbn [take descend shared_prefix]. cbn [length] in Hk.
    destruct (child node c) as [n|]; cbn.
    + rewrite IH by lia. lia.
    + split; [intros [x Hx]; discriminate|lia].
Qed.

Lemma nodes_insertWord w : forall node node',
  insertWord node w = Some node' ->
  (nodes node' + shared_prefix node w = nodes node + length w)%nat.
Proof.
  induction w as [|c w IH]; intros node node' H.
  - injection H as <-. destruct node as [l cs].
    cbn [character shared_prefix length]. rewrite !nodes_Node. lia.
  - cbn [insertWord] in H.
    destruct (edge node (char_index c)) as [slot|] eqn:He; [|discriminate].
    cbn in H.
    destruct (insertWord (default create slot) w) as [sub|] eqn:Hsub;
      [|discriminate].
    cbn in H. injection H as <-.
    specialize (IH _ _ Hsub). cbn [shared_prefix length].
    rewrite (child_edge _ _ _ He).
    apply edge_Some in He as [_ He].
    destruct node as [l cs]. cbn [character isLeaf] in *.
    rewrite !nodes_Node.
    pose proof (list_sum_insert cs _ _ (Some sub) He) as Hsum.
    destruct slot as [x|]; cbn [default slot_nodes] in *; unfold id in *.
    + lia.
    + rewrite shared_prefix_create, nodes_create in IH. lia.
Qed.

(** ** Moving the threshold of a query *)

Lemma findBreak_skip_true node str start end_ mid mid' b :
  0 <= start <= end_ ->
  findBreak node str start end_ mid = (true, b) ->
  mid <= mid' <= b ->
  findBreak node str start end_ mid' = (true, b).
Proof.
  intros Hs H Hm.
  destruct (findBreak_cases node str start end_ mid ltac:(lia) ltac:(lia))
    as [(b0 & Hb0 & Hib0 & Hterm & Hfirst & Heq)
       |[(_ & _ & Heq)|(_ & Hnone & Heq)]]; rewrite Heq in H.
  - injection H as ->. apply findBreak_hit; [lia|lia|lia|exact Hterm|].
    intros k Hk Hk'. apply Hfirst; lia.
  - discriminate.
  - injection H as Ht <-. rewrite Hnone in Ht by lia. discriminate.
Qed.

Lemma findBreak_skip_false node str start end_ mid mid' p :
  0 <= start <= end_ ->
  findBreak node str start end_ mid = (false, p) ->
  mid <= mid' ->
  fst (findBreak node str start end_ mid') = false.
Proof.
  intros Hs H Hm.
  destruct (findBreak_cases node str start end_ mid ltac:(lia) ltac:(lia))
    as [(b0 & _ & _ & _ & _ & Heq)
       |[((q & Hq & Hqn) & Hnone & Heq)|(Hall & Hnone & Heq)]];
    rewrite Heq in H.
  - discriminate.
  - rewrite (findBreak_missing node str start end_ mid' q Hq Hqn);
      [reflexivity|].
    intros k Hk Hk'. apply Hnone; lia.
  - injection H as Ht _.
    rewrite (findBreak_full node str start end_ mid' Hall).
    + exact Ht.
    + intros k Hk Hk'. apply Hnone; lia.
Qed.

(** ** The characters a query reads *)

Lemma isLeafBreak_loop_frame str str' end_ mid : forall n sub i,
  (forall j, i <= j < i + Z.of_nat n -> char_at str j = char_at str' j) ->
  isLeafBreak_loop n sub str end_ i mid
  = isLeafBreak_loop n sub str' end_ i mid.
Proof.
  induction n as [|n IH]; intros sub i H; [reflexivity|].
  cbn [isLeafBreak_loop]. rewrite (H i) by lia.
  destruct (char_at str' i) as [c|]; [|reflexivity]. cbn.
  destruct (edge sub (char_index c)) as [[next|]|]; try reflexivity. cbn.
  destruct ((mid <=? i) && isLeaf next); [reflexivity|].
  apply IH. intros j Hj. apply H. lia.
Qed.

Lemma isLeafBreak_frame node str str' start end_ mid :
  (forall j, start <= j <= end_ -> char_at str j = char_at str' j) ->
  isLeafBreak node str start end_ mid = isLeafBreak node str' start end_ mid.
Proof.
  intros H. unfold isLeafBreak. apply isLeafBreak_loop_frame.
  intros j Hj. apply H. lia.
Qed.

(** Where the loop can leave the position. *)
Lemma isLeafBreak_loop_pos str end_ mid : forall n sub i r p,
  isLeafBreak_loop n sub str end_ i mid = Some (r, p) ->
  p = mid \/ p = end_ \/ i <= p.
Proof.
  induction n as [|n IH]; intros sub i r p H; cbn [isLeafBreak_loop] in H.
  - injection H as _ <-. auto.
  - destruct (char_at str i) as [c|]; [|discriminate]. cbn in H.
    destruct (edge sub (char_index c)) as [[next|]|]; try discriminate;
      cbn in H.
    + destruct ((mid <=? i) && isLeaf next).
      * injection H as _ <-. right. right. lia.
      * apply IH in H as [H|[H|H]]; auto. right. right. lia.
    + injection H as _ <-. auto.
Qed.

Lemma concatWord_fuel_frame node str str' end_ fuel :
  (forall start,
     (forall j, start <= j <= end_ -> char_at str j = char_at str' j) ->
     concatWord_fuel fuel node str start end_
     = concatWord_fuel fuel node str' start end_)
  /\ (forall start i,
        start <= i ->
        (forall j, start <= j <= end_ -> char_at str j = char_at str' j) ->
        concatWord_loop fuel node str start end_ i
        = concatWord_loop fuel node str' start end_ i).
Proof.
  induction fuel as [|fuel [IHw IHl]].
  - split; intros; reflexivity.
  - split.
    + intros start H. cbn [concatWord_fuel].
      destruct (start >? end_); [reflexivity|]. apply IHl; [lia|exact H].
    + intros start i Hi H. cbn [concatWord_loop].
      destruct (i >? end_); [reflexivity|].
      rewrite <- (isLeafBreak_frame node str str' start end_ i H).
      destruct (isLeafBreak node str start end_ i) as [[b i']|] eqn:Hq;
        [|reflexivity].
      destruct (i' =? end_) eqn:Ei; [reflexivity|]. apply Z.eqb_neq in Ei.
      assert (Hpos : start <= i').
      { unfold isLeafBreak in Hq.
        apply isLeafBreak_loop_pos in Hq as [->|[->|Hq]]; [lia|congruence|lia]. }
      rewrite IHw by (intros j Hj; apply H; lia).
      rewrite IHl by (trivial; lia). reflexivity.
Qed.

(** ** The detector: what the count says *)

(** X1: for every well-formed trie, lowercase word and valid range,
    [concatWord] returns a true flag with a count above 1 exactly when the
    range splits into two or more non-empty terminal words of the trie; and
    when it returns a true flag with count 1 the only way to cut the range
    into terminal words is the range itself, in one piece. *)
Theorem concatWord_count_above_one node str start end_ :
  wf node = true -> lowercase str = true ->
  0 <= start <= end_ -> end_ < Z.of_nat (length str) ->
  exists cnt result,
    concatWord node str start end_ = Ret (cnt, result)
    /\ ((result = true /\ 1 < cnt) <->
        exists ps, (2 <= length ps)%nat
          /\ partition_of (terminal_word node) (substr str start end_) ps)
    /\ (result = true -> cnt = 1 ->
        forall ps,
          partition_of (terminal_word node) (substr str start end_) ps ->
          ps = [substr str start end_]).
Proof.
  intros Hwf Hlow Hr He.
  rewrite concatWord_canSegment_amended by (trivial; lia).
  pose proof (canSegment_amended_compound node str end_ He start Hr) as Hiff.
  pose proof (canSegment_amended_single node str end_ He start Hr) as Hone.
  destruct (canSegment_amended node str start end_) as [found cnt].
  cbn [fst snd swap_result] in *.
  exists cnt, found. split; [reflexivity|]. split; [exact Hiff|].
  intros -> ->. exact (Hone eq_refl).
Qed.

Lemma concatWord_count_above_one_witness :
  wf trie1 = true /\ lowercase (cstr "catsdog") = true
  /\ exists cnt result,
       concatWord trie1 (cstr "catsdog") 0 6 = Ret (cnt, result)
       /\ ((result = true /\ 1 < cnt) <->
           exists ps, (2 <= length ps)%nat
             /\ partition_of (terminal_word trie1)
                  (substr (cstr "catsdog") 0 6) ps)
       /\ (result = true -> cnt = 1 ->
           forall ps,
             partition_of (terminal_word trie1)
               (substr (cstr "catsdog") 0 6) ps ->
             ps = [substr (cstr "catsdog") 0 6]).
Proof.
  split; [reflexivity|]. split; [reflexivity|].
  apply (concatWord_count_above_one trie1 (cstr "catsdog") 0 6);
    [reflexivity|reflexivity|lia|cbn; lia].
Defined.

(** X2: for every well-formed trie, lowercase word and valid range, the count
    that [concatWord] returns is never negative and never above the number of
    characters of the range. *)
Theorem concatWord_count_bounds node str start end_ :
  wf node = true -> lowercase str = true ->
  0 <= start <= end_ -> end_ < Z.of_nat (length str) ->
  exists cnt result,
    concatWord node str start end_ = Ret (cnt, result)
    /\ 0 <= cnt <= end_ + 1 - start.
Proof.
  intros Hwf Hlow Hr He.
  rewrite concatWord_canSegment_amended by (trivial; lia).
  pose proof (canSegment_amended_correct node str end_ He start ltac:(lia))
    as [Hyes Hno].
  destruct (canSegment_amended node str start end_) as [found cnt].
  cbn [fst snd swap_result] in *.
  exists cnt, found. split; [reflexivity|]. destruct found.
  - destruct (Hyes eq_refl) as (Hge & ps & Hlen & Hne & Hcat & Hall).
    split; [lia|].
    assert (Hle : (length ps <= length (concat ps))%nat).
    { clear -Hall. induction Hall as [|p ps [Hp _] _ IH]; [cbn; lia|].
      cbn [concat length]. rewrite length_app.
      destruct p; [congruence|cbn [length]; lia]. }
    rewrite Hcat, substr_length in Hle by lia. lia.
  - destruct (Hno eq_refl) as [-> _]. lia.
Qed.

Lemma concatWord_count_bounds_witness :
  wf trie1 = true /\ lowercase (cstr "catsdog") = true
  /\ exists cnt result,
       concatWord trie1 (cstr "catsdog") 0 6 = Ret (cnt, result)
       /\ 0 <= cnt <= 6 + 1 - 0.
Proof.
  split; [reflexivity|]. split; [reflexivity|].
  apply (concatWord_count_bounds trie1 (cstr "catsdog") 0 6);
    [reflexivity|reflexivity|lia|cbn; lia].
Defined.

(** X3: what the program is for.  On an input of lowercase words the driver
    writes a word exactly when it is a word of the input that is the
    concatenation of two or more non-empty words of the input. *)
Theorem main_writes_concatenations words :
  Forall (fun w => lowercase w = true) words ->
  exists out,
    main_output words = Ret out
    /\ forall w, In w out <->
         In w words /\
         exists ps, (2 <= length ps)%nat
           /\ partition_of (fun p => In p words) w ps.
Proof.
  intros Hall.
  destruct (main_output_In words Hall)
    as (node & out & Hb & Hwf & Hinv & Hout & _ & Hin).
  exists out. split; [exact Hout|]. intros w. rewrite Hin.
  assert (Hdict : forall p, terminal_word node p <-> In p words)
    by (intros p; apply trie_invariant_member, Hinv).
  split; intros [Hw H]; (split; [exact Hw|]).
  - assert (Hlow : lowercase w = true).
    { rewrite Forall_forall in Hall. apply Hall. now apply list_elem_of_In. }
    apply (qualifying_compound node w Hwf Hlow) in H as (ps & Hlen & Hps).
    exists ps. split; [exact Hlen|].
    now apply (partition_of_ext _ _ _ _ Hdict).
  - assert (Hlow : lowercase w = true).
    { rewrite Forall_forall in Hall. apply Hall. now apply list_elem_of_In. }
    apply (qualifying_compound node w Hwf Hlow).
    destruct H as (ps & Hlen & Hps). exists ps. split; [exact Hlen|].
    now apply (partition_of_ext _ _ _ _ Hdict).
Qed.

Lemma main_writes_concatenations_witness :
  Forall (fun w => lowercase w = true) dict4
  /\ exists out,
       main_output dict4 = Ret out
       /\ forall w, In w out <->
            In w dict4 /\
            exists ps, (2 <= length ps)%nat
              /\ partition_of (fun p => In p dict4) w ps.
Proof.
  assert (H : Forall (fun w => lowercase w = true) dict4)
    by (repeat constructor).
  split; [exact H|]. exact (main_writes_concatenations dict4 H).
Defined.

(** ** The trie: insertion and lookup *)

(** X4: on a well-formed trie [insertWord] is defined exactly on the words
    made of the letters ['a' .. 'z']: any other character indexes outside the
    array of children. *)
Theorem insertWord_defined_iff_lowercase node w :
  wf node = true ->
  (is_Some (insertWord node w) <-> lowercase w = true).
Proof.
  intros Hwf. split.
  - intros [n Hn]. destruct (lowercase w) eqn:E; [reflexivity|].
    rewrite insertWord_not_lowercase in Hn by exact E. discriminate.
  - intros Hlow. destruct (insertWord_defined w node Hwf Hlow) as (n & Hn & _).
    eauto.
Qed.

Lemma insertWord_defined_iff_lowercase_witness :
  wf trie1 = true
  /\ (is_Some (insertWord trie1 (cstr "Dog")) <-> lowercase (cstr "Dog") = true).
Proof.
  split; [reflexivity|].
  apply (insertWord_defined_iff_lowercase trie1 (cstr "Dog")). reflexivity.
Defined.

(** X5: inserting a word that the trie already holds returns the trie
    unchanged, so a word repeated anywhere later in the input adds nothing. *)
Theorem insertWord_duplicate words node w :
  buildTrie words = Some node -> In w words ->
  insertWord node w = Some node /\ buildTrie (words ++ [w]) = Some node.
Proof.
  intros Hb Hin.
  assert (Hmem : member node w = true)
    by (apply (descend_insertWords _ _ _ w Hb); now right).
  pose proof (insertWord_present w node Hmem) as Hins.
  split; [exact Hins|]. rewrite buildTrie_snoc, Hb. exact Hins.
Qed.

Lemma insertWord_duplicate_witness :
  buildTrie dict1 = Some trie1 /\ In (cstr "dog") dict1
  /\ insertWord trie1 (cstr "dog") = Some trie1
  /\ buildTrie (dict1 ++ [cstr "dog"]) = Some trie1.
Proof.
  assert (Hb : buildTrie dict1 = Some trie1) by reflexivity.
  assert (Hin : In (cstr "dog") dict1) by (cbn; tauto).
  split; [exact Hb|]. split; [exact Hin|].
  exact (insertWord_duplicate dict1 trie1 (cstr "dog") Hb Hin).
Defined.

(** X6: the trie does not depend on the order of the insertions: two
    insertions commute, and two inputs that are permutations of each other
    build the same trie (or are both undefined). *)
Theorem buildTrie_order_independent :
  (forall node w1 w2,
     (n ← insertWord node w1; insertWord n w2)
     = (n ← insertWord node w2; insertWord n w1))
  /\ (forall ws ws', Permutation ws ws' -> buildTrie ws = buildTrie ws').
Proof.
  split.
  - intros node w1 w2. apply insertWord_comm.
  - intros ws ws' H. now apply insertWords_perm.
Qed.

(** X7: after the trie is built from lowercase words, the exact-match lookup
    of a lowercase word, [isLeafBreak(root, w, 0, length-1, mid = length-1)],
    returns true exactly when the word is one of the inserted words. *)
Theorem lookup_iff_inserted words w :
  Forall (fun x => lowercase x = true) words -> lowercase w = true ->
  exists node found pos,
    buildTrie words = Some node
    /\ isLeafBreak node w 0 (Z.of_nat (length w) - 1) (Z.of_nat (length w) - 1)
       = Some (found, pos)
    /\ (found = true <-> In w words).
Proof.
  intros Hall Hlow.
  destruct (buildTrie_invariant words Hall) as (node & Hb & Hwf & Hinv).
  exists node.
  rewrite isLeafBreak_findBreak by (trivial; lia).
  pose proof (findBreak_exact node w 0 (Z.of_nat (length w) - 1)
                (Z.of_nat (length w) - 1) ltac:(lia) ltac:(lia)) as Hex.
  destruct (findBreak node w 0 _ _) as [found pos]. cbn [fst] in Hex.
  exists found, pos. split; [exact Hb|]. split; [reflexivity|].
  rewrite Hex. unfold terminal_at. rewrite substr_whole.
  apply trie_invariant_member, Hinv.
Qed.

Lemma lookup_iff_inserted_witness :
  Forall (fun x => lowercase x = true) dict1 /\ lowercase (cstr "ca") = true
  /\ exists node found pos,
       buildTrie dict1 = Some node
       /\ isLeafBreak node (cstr "ca") 0 1 1 = Some (found, pos)
       /\ (found = true <-> In (cstr "ca") dict1).
Proof.
  assert (H : Forall (fun x => lowercase x = true) dict1)
    by (repeat constructor).
  split; [exact H|]. split; [reflexivity|].
  exact (lookup_iff_inserted dict1 (cstr "ca") H eq_refl).
Defined.

(** X8: on the trie that [create] returns, before any insertion, every query
    on a valid range of a lowercase word fails: [isLeafBreak] returns false
    and leaves [mid] as it was, [concatWord] returns count 0 and flag
    false. *)
Theorem empty_trie_finds_nothing str start end_ mid :
  lowercase str = true ->
  0 <= start <= end_ -> end_ < Z.of_nat (length str) ->
  isLeafBreak create str start end_ mid = Some (false, mid)
  /\ concatWord create str start end_ = Ret (0, false).
Proof.
  intros Hlow Hr He. split.
  - rewrite isLeafBreak_findBreak by (trivial; try apply wf_create; lia).
    f_equal. apply (findBreak_missing create str start end_ mid start);
      [lia|apply node_at_create; lia|intros k Hk; lia].
  - rewrite concatWord_canSegment_amended
      by (trivial; try apply wf_create; lia).
    pose proof (canSegment_amended_correct create str end_ He start ltac:(lia))
      as [Hyes Hno].
    destruct (canSegment_amended create str start end_) as [found cnt].
    cbn [fst snd swap_result] in *. destruct found.
    + exfalso. destruct (Hyes eq_refl) as (_ & ps & _ & Hne & _ & Hall).
      destruct ps as [|p ps]; [congruence|].
      inversion Hall as [|? ? [_ Hp] _]; subst.
      unfold terminal_word in Hp. rewrite member_create in Hp. discriminate.
    + destruct (Hno eq_refl) as [-> _]. reflexivity.
Qed.

Lemma empty_trie_finds_nothing_witness :
  lowercase (cstr "cat") = true
  /\ isLeafBreak create (cstr "cat") 0 2 1 = Some (false, 1)
  /\ concatWord create (cstr "cat") 0 2 = Ret (0, false).
Proof.
  split; [reflexivity|].
  apply (empty_trie_finds_nothing (cstr "cat") 0 2 1);
    [reflexivity|lia|cbn; lia].
Defined.

(** X9: inserting a word never loses a segmentation: if [concatWord] returns
    a true flag for a range on a well-formed trie, it still returns a true
    flag for that range after any lowercase word is inserted. *)
Theorem insertWord_keeps_segmentations node w node' str start end_ cnt :
  wf node = true -> lowercase w = true -> lowercase str = true ->
  0 <= start <= end_ -> end_ < Z.of_nat (length str) ->
  insertWord node w = Some node' ->
  concatWord node str start end_ = Ret (cnt, true) ->
  exists cnt', concatWord node' str start end_ = Ret (cnt', true).
Proof.
  intros Hwf Hw Hlow Hr He Hins Hrun.
  destruct (insertWord_defined w node Hwf Hw) as (n & Hn & Hwf').
  assert (n = node') by congruence. subst n.
  rewrite concatWord_canSegment_amended in Hrun by (trivial; lia).
  rewrite concatWord_canSegment_amended by (trivial; lia).
  pose proof (canSegment_amended_correct node str end_ He start ltac:(lia))
    as [Hyes _].
  pose proof (canSegment_amended_correct node' str end_ He start ltac:(lia))
    as [_ Hno'].
  destruct (canSegment_amended node str start end_) as [found c].
  destruct (canSegment_amended node' str start end_) as [found' c'].
  cbn [fst snd swap_result] in *. injection Hrun as -> ->.
  exists c'. destruct found'; [reflexivity|exfalso].
  destruct (Hyes eq_refl) as (_ & ps & _ & Hne & Hcat & Hall).
  destruct (Hno' eq_refl) as [_ Hnone]. apply (Hnone ps).
  split; [exact Hne|]. split; [exact Hcat|].
  eapply Forall_impl; [exact Hall|]. intros p [Hp Hm]. split; [exact Hp|].
  apply (descend_insertWord _ _ _ p Hins). now left.
Qed.

Lemma insertWord_keeps_segmentations_witness :
  wf trie3 = true /\ lowercase (cstr "catsdog") = true
  /\ insertWord trie3 (cstr "catsdog") = Some trie1
  /\ concatWord trie3 (cstr "catsdog") 0 6 = Ret (2, true)
  /\ exists cnt', concatWord trie1 (cstr "catsdog") 0 6 = Ret (cnt', true).
Proof.
  split; [reflexivity|]. split; [reflexivity|].
  split; [reflexivity|]. split; [reflexivity|].
  apply (insertWord_keeps_segmentations trie3 (cstr "catsdog") trie1
           (cstr "catsdog") 0 6 2);
    [reflexivity|reflexivity|reflexivity|lia|cbn; lia|reflexivity|reflexivity].
Defined.

(** X10: the detector never reads the flag of the root.  Inserting the empty
    word, which only sets that flag, changes no result of [concatWord], with
    any fuel, and no result of [isLeafBreak] on a non-empty range. *)
Theorem empty_word_is_ignored node node' :
  insertWord node [] = Some node' ->
  (forall str start end_,
     concatWord node' str start end_ = concatWord node str start end_)
  /\ (forall fuel str start end_,
        concatWord_fuel fuel node' str start end_
        = concatWord_fuel fuel node str start end_)
  /\ (forall str start end_ mid, start <= end_ ->
        isLeafBreak node' str start end_ mid
        = isLeafBreak node str start end_ mid).
Proof.
  intros [= <-]. split; [|split].
  - intros str start end_. unfold concatWord.
    apply (concatWord_fuel_root_flag node true str end_).
  - intros fuel str start end_.
    apply (concatWord_fuel_root_flag node true str end_).
  - intros str start end_ mid H. now apply isLeafBreak_root_flag.
Qed.

Lemma empty_word_is_ignored_witness :
  insertWord trie1 [] = Some (Node true (character trie1))
  /\ (forall str start end_,
        concatWord (Node true (character trie1)) str start end_
        = concatWord trie1 str start end_)
  /\ (forall fuel str start end_,
        concatWord_fuel fuel (Node true (character trie1)) str start end_
        = concatWord_fuel fuel trie1 str start end_)
  /\ (forall str start end_ mid, start <= end_ ->
        isLeafBreak (Node true (character trie1)) str start end_ mid
        = isLeafBreak trie1 str start end_ mid).
Proof.
  split; [reflexivity|].
  exact (empty_word_is_ignored trie1 (Node true (character trie1)) eq_refl).
Defined.

(** ** The loader and the report of the driver *)

(** X11: [ReadWordFile] is defined exactly when every word of the input is
    lowercase.  It then leaves the trie of the words, a set of lengths that
    is strictly increasing and holds exactly the lengths of the words read,
    and a map whose keys are those lengths; the list stored under a length is
    not empty and holds the words of that length in the order of the
    input. *)
Theorem ReadWordFile_index words :
  (is_Some (ReadWordFile words) <-> Forall (fun w => lowercase w = true) words)
  /\ forall st, ReadWordFile words = Some st ->
       buildTrie words = Some (root st)
       /\ StronglySorted lt (LengthSet st)
       /\ (forall n, In n (LengthSet st) <-> exists w, In w words /\ length w = n)
       /\ (forall n, In n (LengthSet st) <-> is_Some (wordsWithSameLen st !! n))
       /\ (forall n ws, wordsWithSameLen st !! n = Some ws ->
             ws <> [] /\ ws = List.filter (has_length n) words).
Proof.
  assert (Hdef : is_Some (ReadWordFile words)
                 -> Forall (fun w => lowercase w = true) words).
  { intros [st Hst]. destruct (forallb lowercase words) eqn:E.
    - apply Forall_forall. intros x Hx. apply list_elem_of_In in Hx.
      rewrite forallb_forall in E. now apply E.
    - rewrite ReadWordFile_not_lowercase in Hst; [discriminate Hst|].
      intros Hall. assert (forallb lowercase words = true); [|congruence].
      apply forallb_forall. intros x Hx. rewrite Forall_forall in Hall.
      apply Hall. now apply list_elem_of_In. }
  split.
  - split; [exact Hdef|]. intros Hall.
    destruct (ReadWordFile_spec words Hall) as (st & Hread & _). eauto.
  - intros st Hst. assert (Hall := Hdef (ex_intro _ st Hst)).
    destruct (ReadWordFile_spec words Hall)
      as (st1 & Hread1 & Hbuild & _ & Hmap & Hsorted & Hset).
    destruct (ReadWordFile_keys words Hall) as (st2 & Hread2 & Hkeys).
    assert (st1 = st) by congruence. assert (st2 = st) by congruence.
    subst st1 st2.
    split; [exact Hbuild|]. split; [exact Hsorted|]. split; [exact Hset|].
    split; [intros n; now rewrite Hset, Hkeys|].
    intros n ws Hn. specialize (Hmap n). unfold words_of_length in Hmap.
    rewrite Hn in Hmap. cbn in Hmap. split; [|exact Hmap].
    destruct (proj1 (Hkeys n) (ex_intro _ ws Hn)) as (w & Hw & Hlen).
    intros ->. symmetry in Hmap.
    assert (Hin : In w (List.filter (has_length n) words)).
    { apply filter_In. split; [exact Hw|]. unfold has_length.
      now apply Nat.eqb_eq. }
    rewrite Hmap in Hin. exact Hin.
Qed.

(** X12: on an input of lowercase words, "Total Found words" is the number
    of lines of the output file, "The longest output" is its first line and
    "The second longest longest output" its second.  The longest output is at
    least as long as every word written, and the second is at least as long
    as every word written after it. *)
Theorem main_reports_longest words :
  Forall (fun w => lowercase w = true) words ->
  exists r out,
    main_report words = Ret r /\ main_output words = Ret out
    /\ foundWordsFile r = out /\ foundWords r = length out
    /\ longest r = head out /\ second_longest r = out !! 1%nat
    /\ (forall w, longest r = Some w ->
          In w out /\ forall v, In v out -> (length v <= length w)%nat)
    /\ (forall w2, second_longest r = Some w2 ->
          exists w1 rest,
            out = w1 :: w2 :: rest /\ (length w2 <= length w1)%nat
            /\ forall v, In v rest -> (length v <= length w2)%nat).
Proof.
  intros Hall.
  destruct (main_output_In words Hall)
    as (node & out & _ & _ & _ & Hout & Hform & _).
  destruct (ReadWordFile_spec words Hall) as (st & Hread & _ & _ & _ & Hsorted & _).
  rewrite Hread in Hform. cbn [default] in Hform.
  assert (Hs : StronglySorted
                 (fun v w : cstring => (length w <= length v)%nat) out).
  { rewrite Hform. apply groups_sorted. now apply sorted_rev. }
  destruct (emit_all out (Report None None 0 []) eq_refl eq_refl eq_refl)
    as (Hf & Hn & Hl & Hsec).
  cbn [foundWordsFile app] in Hf.
  exists (foldl emit (Report None None 0 []) out), out.
  split; [now rewrite main_report_output, Hout|]. split; [exact Hout|].
  rewrite Hf in Hn, Hl, Hsec.
  split; [exact Hf|]. split; [exact Hn|]. split; [exact Hl|].
  split; [exact Hsec|]. split.
  - intros w Hw. rewrite Hl in Hw. destruct out as [|x out']; [discriminate|].
    cbn in Hw. injection Hw as ->. split; [now left|].
    apply StronglySorted_cons in Hs as [Hx _]. intros v [<-|Hv]; [lia|].
    rewrite Forall_forall in Hx. apply Hx. now apply list_elem_of_In.
  - intros w2 Hw. rewrite Hsec in Hw.
    destruct out as [|w1 [|x rest]]; try discriminate.
    cbn in Hw. injection Hw as ->. exists w1, rest. split; [reflexivity|].
    apply StronglySorted_cons in Hs as [H1 Hs].
    apply StronglySorted_cons in Hs as [H2 _]. split.
    + rewrite Forall_forall in H1. apply H1. left.
    + intros v Hv. rewrite Forall_forall in H2. apply H2.
      now apply list_elem_of_In.
Qed.

Lemma main_reports_longest_witness :
  Forall (fun w => lowercase w = true) dict4
  /\ exists r out,
       main_report dict4 = Ret r /\ main_output dict4 = Ret out
       /\ foundWordsFile r = out /\ foundWords r = length out
       /\ longest r = head out /\ second_longest r = out !! 1%nat
       /\ (forall w, longest r = Some w ->
             In w out /\ forall v, In v out -> (length v <= length w)%nat)
       /\ (forall w2, second_longest r = Some w2 ->
             exists w1 rest,
               out = w1 :: w2 :: rest /\ (length w2 <= length w1)%nat
               /\ forall v, In v rest -> (length v <= length w2)%nat).
Proof.
  assert (H : Forall (fun w => lowercase w = true) dict4)
    by (repeat constructor).
  split; [exact H|]. exact (main_reports_longest dict4 H).
Defined.

(** ** The split that the detector returns *)

(** X13: the first split that works wins.  Let [b] be the first position of
    a valid range at which a terminal word ends and after which the rest of
    the range is empty or is reported found; every earlier break has a rest
    that is reported not found.  Then [concatWord] returns a true flag with
    count 1 when [b] is the end of the range, and with one more than the
    count of the rest after [b] otherwise. *)
Theorem concatWord_first_split node str start end_ b :
  wf node = true -> lowercase str = true ->
  0 <= start <= b -> b <= end_ -> end_ < Z.of_nat (length str) ->
  terminal_at node str start b = true ->
  (forall b', start <= b' < b -> terminal_at node str start b' = true ->
     exists c, concatWord node str (b' + 1) end_ = Ret (c, false)) ->
  (b = end_ -> concatWord node str start end_ = Ret (1, true))
  /\ (forall c, b < end_ ->
        concatWord node str (b + 1) end_ = Ret (c, true) ->
        concatWord node str start end_ = Ret (1 + c, true)).
Proof.
  intros Hwf Hlow Hs Hb He Hterm Hmin.
  assert (Hrun : forall s, 0 <= s ->
            concatWord node str s end_
            = Ret (swap_result (canSegment_amended node str s end_)))
    by (intros s Hs'; now apply concatWord_canSegment_amended).
  assert (Hmin' : forall b', start <= b' < b ->
            terminal_at node str start b' = true ->
            fst (canSegment_amended node str (b' + 1) end_) = false).
  { intros b' Hb' Ht. destruct (Hmin b' Hb' Ht) as [c Hc].
    rewrite Hrun in Hc by lia.
    destruct (canSegment_amended node str (b' + 1) end_).
    unfold swap_result in Hc. cbn in *. congruence. }
  split.
  - intros ->. rewrite Hrun by lia.
    rewrite (canSegment_amended_first node str end_ Hwf Hlow He start end_);
      [|lia|lia|exact Hterm|now left|exact Hmin'].
    now rewrite Z.eqb_refl.
  - intros c Hlt Hc. rewrite Hrun in Hc by lia. rewrite Hrun by lia.
    rewrite (canSegment_amended_first node str end_ Hwf Hlow He start b);
      [|lia|lia|exact Hterm| |exact Hmin'].
    + replace (b =? end_) with false by (symmetry; apply Z.eqb_neq; lia).
      destruct (canSegment_amended node str (b + 1) end_).
      unfold swap_result in *. cbn in *. congruence.
    + right. destruct (canSegment_amended node str (b + 1) end_).
      unfold swap_result in *. cbn in *. congruence.
Qed.

Lemma concatWord_first_split_witness :
  wf trie1 = true /\ lowercase (cstr "catsdog") = true
  /\ (3 = 6 -> concatWord trie1 (cstr "catsdog") 0 6 = Ret (1, true))
  /\ (forall c, 3 < 6 ->
        concatWord trie1 (cstr "catsdog") 4 6 = Ret (c, true) ->
        concatWord trie1 (cstr "catsdog") 0 6 = Ret (1 + c, true)).
Proof.
  split; [reflexivity|]. split; [reflexivity|].
  apply (concatWord_first_split trie1 (cstr "catsdog") 0 6 3);
    [reflexivity|reflexivity|lia|lia|cbn; lia|reflexivity|].
  intros b' Hb' _. exists 0.
  assert (Hc : b' = 0 \/ b' = 1 \/ b' = 2) by lia.
  destruct Hc as [-> | [-> | ->]]; reflexivity.
Defined.

(** ** Allocation *)

(** X14: [insertWord] allocates one node for each letter of the word beyond
    the longest prefix that already has a path in the trie, and none for the
    letters of that prefix: the number of nodes grows by the length of the
    word minus the length of that prefix.  The trie of [create] has one
    node. *)
Theorem insertWord_allocates node w node' :
  insertWord node w = Some node' ->
  nodes node' = (nodes node + (length w - shared_prefix node w))%nat
  /\ (shared_prefix node w <= length w)%nat
  /\ (forall k, (k <= length w)%nat ->
        (is_Some (descend node (take k w)) <-> (k <= shared_prefix node w)%nat))
  /\ nodes create = 1%nat.
Proof.
  intros H. pose proof (nodes_insertWord w node node' H) as Hn.
  pose proof (shared_prefix_le w node) as Hle.
  split; [lia|]. split; [exact Hle|]. split; [|reflexivity].
  intros k Hk. now apply shared_prefix_descend.
Qed.

Lemma insertWord_allocates_witness :
  insertWord trie3 (cstr "catsdog") = Some trie1
  /\ nodes trie1
     = (nodes trie3
        + (length (cstr "catsdog") - shared_prefix trie3 (cstr "catsdog")))%nat
  /\ (shared_prefix trie3 (cstr "catsdog") <= length (cstr "catsdog"))%nat
  /\ (forall k, (k <= length (cstr "catsdog"))%nat ->
        (is_Some (descend trie3 (take k (cstr "catsdog")))
         <-> (k <= shared_prefix trie3 (cstr "catsdog"))%nat))
  /\ nodes create = 1%nat.
Proof.
  split; [reflexivity|].
  exact (insertWord_allocates trie3 (cstr "catsdog") trie1 eq_refl).
Defined.

(** ** Queries: thresholds and the characters read *)

(** X15: moving the threshold of a query forward loses no break.  On a
    well-formed trie, a lowercase word and a valid range, if [isLeafBreak]
    succeeds with break position [b] from the threshold [mid], it returns the
    same break from every threshold between [mid] and [b]; and if it fails
    from [mid], it fails from every later threshold. *)
Theorem isLeafBreak_threshold node str start end_ mid mid' :
  wf node = true -> lowercase str = true ->
  0 <= start <= end_ -> end_ < Z.of_nat (length str) ->
  mid <= mid' ->
  (forall b, isLeafBreak node str start end_ mid = Some (true, b) ->
     mid' <= b ->
     isLeafBreak node str start end_ mid' = Some (true, b))
  /\ (forall p, isLeafBreak node str start end_ mid = Some (false, p) ->
        exists p', isLeafBreak node str start end_ mid' = Some (false, p')).
Proof.
  intros Hwf Hlow Hs He Hm.
  rewrite !isLeafBreak_findBreak by (trivial; lia). split.
  - intros b [= H] Hb. f_equal.
    apply (findBreak_skip_true node str start end_ mid mid' b); trivial; lia.
  - intros p [= H].
    pose proof (findBreak_skip_false node str start end_ mid mid' p Hs H Hm)
      as Hf.
    destruct (findBreak node str start end_ mid') as [r p']. cbn in Hf.
    subst r. eauto.
Qed.

Lemma isLeafBreak_threshold_witness :
  wf trie1 = true /\ lowercase (cstr "catsdog") = true
  /\ (forall b, isLeafBreak trie1 (cstr "catsdog") 0 6 0 = Some (true, b) ->
        2 <= b ->
        isLeafBreak trie1 (cstr "catsdog") 0 6 2 = Some (true, b))
  /\ (forall p, isLeafBreak trie1 (cstr "catsdog") 0 6 0 = Some (false, p) ->
        exists p', isLeafBreak trie1 (cstr "catsdog") 0 6 2 = Some (false, p')).
Proof.
  split; [reflexivity|]. split; [reflexivity|].
  apply (isLeafBreak_threshold trie1 (cstr "catsdog") 0 6 0 2);
    [reflexivity|reflexivity|lia|cbn; lia|lia].
Defined.

(** X16: the queries read the word only inside the range.  Two words that
    have the same characters at the positions [start .. end] get the same
    result from [isLeafBreak] and from [concatWord], with any trie, any
    threshold and any fuel, undefined results included. *)
Theorem queries_read_only_the_range node str str' start end_ :
  (forall j, start <= j <= end_ -> char_at str j = char_at str' j) ->
  (forall mid,
     isLeafBreak node str start end_ mid = isLeafBreak node str' start end_ mid)
  /\ concatWord node str start end_ = concatWord node str' start end_
  /\ (forall fuel,
        concatWord_fuel fuel node str start end_
        = concatWord_fuel fuel node str' start end_).
Proof.
  intros H. split; [|split].
  - intros mid. now apply isLeafBreak_frame.
  - unfold concatWord.
    now apply (concatWord_fuel_frame node str str' end_).
  - intros fuel. now apply (concatWord_fuel_frame node str str' end_).
Qed.

Lemma queries_read_only_the_range_witness :
  (forall j, 1 <= j <= 3 ->
     char_at (cstr "xcatY") j = char_at (cstr "scatsdog") j)
  /\ (forall mid,
        isLeafBreak trie1 (cstr "xcatY") 1 3 mid
        = isLeafBreak trie1 (cstr "scatsdog") 1 3 mid)
  /\ concatWord trie1 (cstr "xcatY") 1 3 = concatWord trie1 (cstr "scatsdog") 1 3
  /\ (forall fuel,
        concatWord_fuel fuel trie1 (cstr "xcatY") 1 3
        = concatWord_fuel fuel trie1 (cstr "scatsdog") 1 3).
Proof.
  assert (H : forall j, 1 <= j <= 3 ->
            char_at (cstr "xcatY") j = char_at (cstr "scatsdog") j).
  { intros j Hj. assert (Hc : j = 1 \/ j = 2 \/ j = 3) by lia.
    destruct Hc as [-> | [-> | ->]]; reflexivity. }
  split; [exact H|].
  exact (queries_read_only_the_range trie1 (cstr "xcatY") (cstr "scatsdog") 1 3 H).
Defined.

(** X17: a non-empty range that starts outside the word is outside the
    contract: the first character read is not a letter of the word (the
    terminator, or memory next to the string) and indexes outside the array
    of children, so [isLeafBreak] and [concatWord] are undefined, with any
    trie. *)
Theorem range_outside_word_undefined node str start end_ mid :
  start <= end_ ->
  start < 0 \/ Z.of_nat (length str) <= start ->
  isLeafBreak node str start end_ mid = None
  /\ concatWord node str start end_ = Undefined.
Proof.
  intros Hr Hout.
  assert (Hc : char_at str start = None).
  { unfold char_at. destruct (0 <=? start) eqn:E; [|reflexivity].
    apply Z.leb_le in E. apply lookup_ge_None. lia. }
  assert (Hq : forall m, isLeafBreak node str start end_ m = None).
  { intros m. unfold isLeafBreak.
    destruct (Z.to_nat (end_ + 1 - start)) as [|n] eqn:E; [lia|].
    cbn [isLeafBreak_loop]. now rewrite Hc. }
  split; [apply Hq|]. unfold concatWord.
  destruct (Z.to_nat (2 * (end_ + 1 - start))) as [|[|fuel]] eqn:E; [lia|lia|].
  cbn [concatWord_fuel concatWord_loop]. rewrite !gtb_false by lia.
  now rewrite Hq.
Qed.

Lemma range_outside_word_undefined_witness :
  3 <= 5 /\ (3 < 0 \/ Z.of_nat (length (cstr "cat")) <= 3)
  /\ isLeafBreak trie1 (cstr "cat") 3 5 3 = None
  /\ concatWord trie1 (cstr "cat") 3 5 = Undefined.
Proof.
  assert (H : 3 < 0 \/ Z.of_nat (length (cstr "cat")) <= 3)
    by (right; cbn; lia).
  split; [lia|]. split; [exact H|].
  apply (range_outside_word_undefined trie1 (cstr "cat") 3 5 3); [lia|exact H].
Defined.
